(** * Packfile decoder (package packfile, decoder.go)

    A shallow embedding of the [Decoder] of go-git's packfile package and
    of the storer interfaces it drives, together with the properties of
    the decoder that its specification states.

    The decoder is written against three collaborators that live in other
    files: the [Scanner] that frames the pack, the object store
    ([storer.ObjectStorer], optionally a [storer.Transactioner]) and the
    objects themselves ([plumbing.Object]).  Each of them is an interface
    here: a record of operations over an abstract state.  The decoder's
    own functions are transcribed one by one, in the order of the source. *)

From Stdlib Require Import ZArith NArith.
From stdpp Require Import gmap strings list.

Open Scope Z_scope.

(** ** Plumbing types *)

(** [plumbing.Hash] is a [[20]byte]; it is read here as the 160-bit number
    it spells.  [plumbing.ZeroHash] is the all-zero array. *)
Abbreviation Hash := N (only parsing).
Definition ZeroHash : Hash := 0%N.

Abbreviation bytes := (list Byte.byte) (only parsing).

(** Modelled from the spec: the declaration of [plumbing.ObjectType] is not
    part of the sources at hand.  The type tags are the six of the data
    model, [AnyObject] (named by [recallByOffset] and [recallByHash]) and
    [InvalidObject] for every other tag a header can carry. *)
Inductive ObjectType :=
| InvalidObject
| CommitObject
| TreeObject
| BlobObject
| TagObject
| OFSDeltaObject
| REFDeltaObject
| AnyObject.

#[global] Instance ObjectType_eq_dec : EqDecision ObjectType.
Proof. solve_decision. Defined.

(** ** Errors *)

(** An [error] value is either a [*packfile.Error] (a reason and the
    details added to it), the sentinel [plumbing.ErrObjectNotFound], or an
    error of a collaborator, known by its message only. *)
Inductive Err :=
| PackError (reason details : string)
| ErrObjectNotFound
| ExternalError (msg : string).

#[global] Instance Err_eq_dec : EqDecision Err.
Proof. solve_decision. Defined.

Definition NewError (reason : string) : Err := PackError reason "".

Definition ErrMaxObjectsLimitReached := NewError "max. objects limit reached".
Definition ErrInvalidObject := NewError "invalid git object".
Definition ErrPackEntryNotFound := NewError "can't find a pack entry".
Definition ErrZLib := NewError "zlib reading error".
Definition ErrCannotRecall := NewError "cannot recall object".
Definition ErrNonSeekable := NewError "non-seekable scanner".
Definition ErrRollback := NewError "rollback error, during set error".

(** Modelled from the spec: [Error.AddDetails] and [Error.Error] are
    declared in a file that is not at hand; an error carries a reason and a
    human-readable detail string, and [AddDetails] keeps the reason. *)
Definition AddDetails (e : Err) (details : string) : Err :=
  match e with
  | PackError reason _ => PackError reason details
  | _ => e
  end.

Definition errMsg (e : Err) : string :=
  match e with
  | PackError reason "" => reason
  | PackError reason details => reason +:+ ": " +:+ details
  | ErrObjectNotFound => "object not found"
  | ExternalError msg => msg
  end.

(** A run-time panic of the Go program. *)
Inductive panic :=
| NilDereference
| InterfaceConversion.

(** What a call comes to: it returns, it panics, or the model ran out of
    fuel before the recursion of the program ended. *)
Inductive outcome (A : Type) :=
| Returns (a : A)
| Panics (p : panic)
| Diverges.
Arguments Returns {A} a.
Arguments Panics {A} p.
Arguments Diverges {A}.

(** ** The collaborators' interfaces *)

(** Modelled from the spec: [ObjectHeader] is declared with the Scanner,
    which is not at hand; its fields are the ones that decoder.go reads. *)
Record ObjectHeader := {
  Type_ : ObjectType;
  Offset : Z;
  Length : Z;
  Reference : Hash;
  OffsetReference : Z
}.

(** Modelled from the spec: the [Scanner] (scanner.go is not at hand).
    [S] is everything the scanner owns: the reader, its cursor, the CRC
    and checksum state.  [IsSeekable] is a field the scanner sets when it
    is built and nothing writes afterwards.  [NextObject] streams the body
    into a writer: the bytes it wrote are part of its result here. *)
Record Scanner (S : Type) := {
  IsSeekable : bool;
  Header : S -> (Z * N * option Err) * S;
  NextObjectHeader : S -> (ObjectHeader + Err) * S;
  NextObject : S -> (bytes * Z * option Err) * S;
  Seek : Z -> S -> (Z * option Err) * S;
  Checksum : S -> (Hash * option Err) * S;
  Close : S -> option Err * S
}.
Arguments IsSeekable {S} _.
Arguments Header {S} _ _.
Arguments NextObjectHeader {S} _ _.
Arguments NextObject {S} _ _.
Arguments Seek {S} _ _ _.
Arguments Checksum {S} _ _.
Arguments Close {S} _ _.

(** Modelled from the spec: [plumbing.Object] and [plumbing.MemoryObject]
    (object.go is not at hand), with [ApplyDelta] of the delta interpreter.
    Objects are mutable in Go; every operation that writes one returns the
    written object here. *)
Record ObjectAPI (Obj : Type) := {
  MemoryObject : Obj;
  SetSize : Z -> Obj -> Obj;
  SetType : ObjectType -> Obj -> Obj;
  GetType : Obj -> ObjectType;
  HashOf : Obj -> Hash;
  Writer : Obj -> option Err;
  Write : bytes -> Obj -> Obj;
  ApplyDelta : Obj -> Obj -> bytes -> Obj * option Err;
  typeString : ObjectType -> string
}.
Arguments MemoryObject {Obj} _.
Arguments SetSize {Obj} _ _ _.
Arguments SetType {Obj} _ _ _.
Arguments GetType {Obj} _ _.
Arguments HashOf {Obj} _ _.
Arguments Writer {Obj} _ _.
Arguments Write {Obj} _ _ _.
Arguments ApplyDelta {Obj} _ _ _ _.
Arguments typeString {Obj} _ _.

(** [storer.Transaction] (plumbing/storer/object.go): an interface value,
    its methods acting on the state [T] of the storage behind it.  A
    [plumbing.Object] handed to [SetObject] is an interface value too, and
    can be nil. *)
Record Transaction (T Obj : Type) := {
  txSetObject : option Obj -> T -> (Hash * option Err) * T;
  txObject : ObjectType -> Hash -> T -> (option Obj * option Err) * T;
  Commit : T -> option Err * T;
  Rollback : T -> option Err * T
}.
Arguments txSetObject {T Obj} _ _ _.
Arguments txObject {T Obj} _ _ _ _.
Arguments Commit {T Obj} _ _.
Arguments Rollback {T Obj} _ _.

(** [storer.ObjectStorer], and [storer.Transactioner] as the optional
    method [Begin]: [asTransactioner] is the type assertion
    [o.(storer.Transactioner)].  [IterObjects] is not used by the
    decoder. *)
Record ObjectStorer (T Obj : Type) := {
  NewObject : T -> Obj * T;
  SetObject : option Obj -> T -> (Hash * option Err) * T;
  Object : ObjectType -> Hash -> T -> (option Obj * option Err) * T;
  asTransactioner : option (T -> Transaction T Obj * T)
}.
Arguments NewObject {T Obj} _ _.
Arguments SetObject {T Obj} _ _ _.
Arguments Object {T Obj} _ _ _ _.
Arguments asTransactioner {T Obj} _.

(** ** The decoder *)

Section Decoder.

Context {Sc St Obj : Type}.
Variable sc : Scanner Sc.
Variable api : ObjectAPI Obj.

(** [type Decoder struct]: the scanner [s] is a pointer to the state that
    [World] holds; [o] and [tx] are interface values, [None] when nil. *)
Record Decoder := {
  o : option (ObjectStorer St Obj);
  tx : option (Transaction St Obj);
  offsetToHash : gmap Z Hash;
  hashToOffset : gmap Hash Z;
  crcs : gmap Hash Z
}.

(** The memory a decoder works on: its own fields, the scanner behind
    [d.s] and the storage behind [d.o]. *)
Record World := {
  dec : Decoder;
  scn : Sc;
  sto : St
}.

Definition with_dec (d : Decoder) (w : World) : World :=
  {| dec := d; scn := scn w; sto := sto w |}.
Definition with_scn (s : Sc) (w : World) : World :=
  {| dec := dec w; scn := s; sto := sto w |}.
Definition with_sto (t : St) (w : World) : World :=
  {| dec := dec w; scn := scn w; sto := t |}.

(** The three maps of the index. *)
Definition indexOf (d : Decoder) : gmap Z Hash * gmap Hash Z * gmap Hash Z :=
  (offsetToHash d, hashToOffset d, crcs d).

Definition index (w : World) : gmap Z Hash * gmap Hash Z * gmap Hash Z :=
  indexOf (dec w).

(** *** Calls: state passing, with panics *)

Definition M (A : Type) : Type := World -> outcome A * World.

Definition ret {A} (a : A) : M A := fun w => (Returns a, w).

Definition bind {A B} (m : M A) (k : A -> M B) : M B := fun w =>
  match m w with
  | (Returns a, w') => k a w'
  | (Panics p, w') => (Panics p, w')
  | (Diverges, w') => (Diverges, w')
  end.

Notation "'let*' x ':=' m 'in' k" := (bind m (fun x => k))
  (at level 10, x pattern, m at level 100, k at level 200).

Definition raise {A} (p : panic) : M A := fun w => (Panics p, w).

(** A method of the scanner [d.s]. *)
Definition scan {A} (f : Sc -> A * Sc) : M A := fun w =>
  let '(a, s') := f (scn w) in (Returns a, with_scn s' w).

(** A method of the storage. *)
Definition store {A} (f : St -> A * St) : M A := fun w =>
  let '(a, t') := f (sto w) in (Returns a, with_sto t' w).

(** A method of the interface value [d.tx]: on nil the call panics. *)
Definition d_tx {A} (f : Transaction St Obj -> St -> A * St) : M A := fun w =>
  match tx (dec w) with
  | None => (Panics NilDereference, w)
  | Some t => store (f t) w
  end.

(** A method of the interface value [d.o]. *)
Definition d_o {A} (f : ObjectStorer St Obj -> St -> A * St) : M A := fun w =>
  match o (dec w) with
  | None => (Panics NilDereference, w)
  | Some st => store (f st) w
  end.

Definition getDec : M Decoder := fun w => (Returns (dec w), w).

(** [defer]: the deferred call runs when the body returns and when it
    panics; what it returns is dropped. *)
Definition defer {A B} (body : M A) (deferred : M B) : M A := fun w =>
  match body w with
  | (Diverges, w') => (Diverges, w')
  | (out, w') => (out, snd (deferred w'))
  end.

(** *** NewDecoder *)

(** [x == nil] on an interface value. *)
Definition isNil {A} (x : option A) : bool :=
  match x with
  | None => true
  | Some _ => false
  end.

(** [NewDecoder(s, o)]: the field [tx] is not listed in the composite
    literal, so it holds its zero value, nil. *)
Definition NewDecoder (o : option (ObjectStorer St Obj)) : option Decoder * option Err :=
  if negb (IsSeekable sc) && isNil o then (None, Some ErrNonSeekable)
  else (Some {| o := o; tx := None;
                offsetToHash := ∅; hashToOffset := ∅; crcs := ∅ |}, None).

(** *** The index *)

Definition setOffset (h : Hash) (offset : Z) : M unit := fun w =>
  let d := dec w in
  let d1 := {| o := o d; tx := tx d;
               offsetToHash := <[offset := h]> (offsetToHash d);
               hashToOffset := hashToOffset d; crcs := crcs d |} in
  let d2 := {| o := o d1; tx := tx d1;
               offsetToHash := offsetToHash d1;
               hashToOffset := <[h := offset]> (hashToOffset d1); crcs := crcs d1 |} in
  (Returns tt, with_dec d2 w).

Definition setCRC (h : Hash) (crc : Z) : M unit := fun w =>
  let d := dec w in
  (Returns tt, with_dec {| o := o d; tx := tx d;
                           offsetToHash := offsetToHash d;
                           hashToOffset := hashToOffset d;
                           crcs := <[h := crc]> (crcs d) |} w).

(** [SetOffsets] makes [d.hashToOffset] the caller's map itself; the
    sharing with the caller is not part of the model. *)
Definition SetOffsets (offsets : gmap Hash Z) : M unit := fun w =>
  let d := dec w in
  (Returns tt, with_dec {| o := o d; tx := tx d;
                           offsetToHash := offsetToHash d;
                           hashToOffset := offsets;
                           crcs := crcs d |} w).

Definition Offsets : M (gmap Hash Z) := fun w => (Returns (hashToOffset (dec w)), w).

Definition CRCs : M (gmap Hash Z) := fun w => (Returns (crcs (dec w)), w).

Definition Close_ : M (option Err) := scan (Close sc).

(** *** Reading one object *)

(** What [ReadObject] and [ReadObjectAt] return: [(plumbing.Object, error)],
    both of which can be non-nil. *)
Definition ObjErr : Type := option Obj * option Err.

Definition newObject : M Obj := fun w =>
  match o (dec w) with
  | None => (Returns (MemoryObject api), w)
  | Some st => store (NewObject st) w
  end.

(** The functions from [ReadObject] to [recallByHash] call one another;
    each is written over [rec], the [ReadObject] it calls, and the knot is
    tied by [ReadObject] below. *)
Section Rec.

Variable rec : M ObjErr.

(** [ReadObjectAt]: the results are unnamed, and [err] is the local
    variable declared with [beforeJump].  The deferred closure seeks back
    and assigns that local; [return d.ReadObject()] has set the results
    before the closure runs. *)
Definition ReadObjectAt (offset : Z) : M ObjErr :=
  if negb (IsSeekable sc) then ret (None, Some ErrNonSeekable)
  else
    let* (beforeJump, err) := scan (Seek sc offset) in
    match err with
    | Some e => ret (None, Some e)
    | None =>
        defer rec
          (let* (_, seekErr) := scan (Seek sc beforeJump) in
           let err := match err with None => seekErr | Some _ => err end in
           ret err)
    end.

Definition fillRegularObjectContent (obj : Obj) : M (Obj * Z * option Err) :=
  match Writer api obj with
  | Some e => ret (obj, 0, Some e)
  | None =>
      let* (data, crc, err) := scan (NextObject sc) in
      ret (Write api data obj, crc, err)
  end.

Definition recallByOffset (o : Z) : M ObjErr :=
  if IsSeekable sc then ReadObjectAt o
  else
    let* d := getDec in
    match offsetToHash d !! o with
    | Some h => d_tx (fun t => txObject t AnyObject h)
    | None => ret (None, Some ErrObjectNotFound)
    end.

Definition recallByHash (h : Hash) : M ObjErr :=
  let fromStore : M ObjErr :=
    let* (obj, err) := d_tx (fun t => txObject t AnyObject h) in
    if bool_decide (err ≠ Some ErrObjectNotFound) then ret (obj, err)
    else ret (None, Some ErrObjectNotFound) in
  if IsSeekable sc then
    let* d := getDec in
    match hashToOffset d !! h with
    | Some o => ReadObjectAt o
    | None => fromStore
    end
  else fromStore.

(** [obj.SetType(base.Type()); return crc, ApplyDelta(obj, base, buf)]:
    a nil [base] makes [base.Type()] panic. *)
Definition applyBase (obj : Obj) (base : option Obj) (buf : bytes) (crc : Z)
  : M (Obj * Z * option Err) :=
  match base with
  | None => raise NilDereference
  | Some b =>
      let obj := SetType api (GetType api b) obj in
      let '(obj, err) := ApplyDelta api obj b buf in
      ret (obj, crc, err)
  end.

Definition fillREFDeltaObjectContent (obj : Obj) (ref : Hash) : M (Obj * Z * option Err) :=
  let* (buf, crc, err) := scan (NextObject sc) in
  match err with
  | Some e => ret (obj, 0, Some e)
  | None =>
      let* (base, err) := recallByHash ref in
      match err with
      | Some e => ret (obj, 0, Some e)
      | None => applyBase obj base buf crc
      end
  end.

Definition fillOFSDeltaObjectContent (obj : Obj) (offset : Z) : M (Obj * Z * option Err) :=
  let* (buf, crc, err) := scan (NextObject sc) in
  match err with
  | Some e => ret (obj, 0, Some e)
  | None =>
      let* (base, err) := recallByOffset offset in
      match err with
      | Some e => ret (obj, 0, Some e)
      | None => applyBase obj base buf crc
      end
  end.

(** ["type %q"] of the tag. *)
Definition invalidTypeDetails (t : ObjectType) : string :=
  "type " +:+ String.String (Ascii.ascii_of_nat 34)
    (typeString api t +:+ String.String (Ascii.ascii_of_nat 34) "").

(** The [switch h.Type] of [ReadObject]. *)
Definition fillObjectContent (h : ObjectHeader) (obj : Obj) : M (Obj * Z * option Err) :=
  match Type_ h with
  | CommitObject | TreeObject | BlobObject | TagObject =>
      fillRegularObjectContent obj
  | REFDeltaObject => fillREFDeltaObjectContent obj (Reference h)
  | OFSDeltaObject => fillOFSDeltaObjectContent obj (OffsetReference h)
  | _ => ret (obj, 0, Some (AddDetails ErrInvalidObject (invalidTypeDetails (Type_ h))))
  end.

Definition ReadObject_body : M ObjErr :=
  let* hr := scan (NextObjectHeader sc) in
  match hr with
  | inr e => ret (None, Some e)
  | inl h =>
      let* obj := newObject in
      let obj := SetSize api (Length h) obj in
      let obj := SetType api (Type_ h) obj in
      let* (obj, crc, err) := fillObjectContent h obj in
      match err with
      | Some e => ret (Some obj, Some e)
      | None =>
          let hash := HashOf api obj in
          let* _ := setOffset hash (Offset h) in
          let* _ := setCRC hash crc in
          ret (Some obj, None)
      end
  end.

End Rec.

(** [ReadObject], with [fuel] bounding the depth of the chain of delta
    bases it re-reads from the pack. *)
Fixpoint ReadObject (fuel : nat) : M ObjErr :=
  match fuel with
  | O => fun w => (Diverges, w)
  | S fuel' => ReadObject_body (ReadObject fuel')
  end.

(** *** Decoding a pack *)

Fixpoint readObjects (fuel count : nat) : M (option Err) :=
  match count with
  | O => ret None
  | S count' =>
      let* (_, err) := ReadObject fuel in
      match err with
      | Some e => ret (Some e)
      | None => readObjects fuel count'
      end
  end.

Fixpoint readObjectsWithObjectStorer (fuel count : nat) : M (option Err) :=
  match count with
  | O => ret None
  | S count' =>
      let* (obj, err) := ReadObject fuel in
      match err with
      | Some e => ret (Some e)
      | None =>
          let* (_, err) := d_o (fun st => SetObject st obj) in
          match err with
          | Some e => ret (Some e)
          | None => readObjectsWithObjectStorer fuel count'
          end
      end
  end.

(** The text of the details of [ErrRollback]:
    ["error: %s, during tx.Set error: %s"]. *)
Definition rollbackDetails (rerr err : Err) : string :=
  "error: " +:+ errMsg rerr +:+ ", during tx.Set error: " +:+ errMsg err.

(** The loop of [readObjectsWithObjectStorerTx] and its [tx.Commit()]:
    [tx] is the local variable, the transaction that [Begin] returned;
    the rollback is called on the field [d.tx]. *)
Fixpoint readObjectsTxLoop (fuel : nat) (tx : Transaction St Obj) (count : nat)
  : M (option Err) :=
  match count with
  | O => store (Commit tx)
  | S count' =>
      let* (obj, err) := ReadObject fuel in
      match err with
      | Some e => ret (Some e)
      | None =>
          let* (_, err) := store (txSetObject tx obj) in
          match err with
          | Some e =>
              let* rerr := d_tx (fun dtx => Rollback dtx) in
              match rerr with
              | Some re => ret (Some (AddDetails ErrRollback (rollbackDetails re e)))
              | None => ret (Some e)
              end
          | None => readObjectsTxLoop fuel tx count'
          end
      end
  end.

(** [d.o.(storer.Transactioner)], the assertion without [ok]. *)
Definition asTransactioner_ : M (St -> Transaction St Obj * St) := fun w =>
  match o (dec w) with
  | Some st =>
      match asTransactioner st with
      | Some begin => (Returns begin, w)
      | None => (Panics InterfaceConversion, w)
      end
  | None => (Panics InterfaceConversion, w)
  end.

Definition readObjectsWithObjectStorerTx (fuel count : nat) : M (option Err) :=
  let* begin := asTransactioner_ in
  let* tx := store begin in
  readObjectsTxLoop fuel tx count.

(** [int(count)] of a [uint32], on a 64-bit [int]. *)
Definition int_of_uint32 (count : N) : nat := N.to_nat count.

Definition doDecode (fuel : nat) : M (option Err) :=
  let* (_, count, err) := scan (Header sc) in
  match err with
  | Some e => ret (Some e)
  | None =>
      let* d := getDec in
      let isTxStorer :=
        match o d with
        | Some st => negb (isNil (asTransactioner st))
        | None => false
        end in
      if isNil (o d) then readObjects fuel (int_of_uint32 count)
      else if isTxStorer then readObjectsWithObjectStorerTx fuel (int_of_uint32 count)
      else readObjectsWithObjectStorer fuel (int_of_uint32 count)
  end.

Definition Decode (fuel : nat) : M (Hash * option Err) :=
  let* err := doDecode fuel in
  match err with
  | Some e => ret (ZeroHash, Some e)
  | None => scan (Checksum sc)
  end.

End Decoder.

Arguments Decoder : clear implicits.
Arguments World : clear implicits.
Arguments M : clear implicits.

(** ** Vocabulary of the properties *)

Section Vocabulary.

Context {Sc St Obj : Type}.
Variable sc : Scanner Sc.
Variable api : ObjectAPI Obj.

(** A call leaves a part of the world as it found it, whatever it comes
    to. *)
Definition keeps {X A} (part : World Sc St Obj -> X) (m : M Sc St Obj A) : Prop :=
  forall w, part (snd (m w)) = part w.

(** [m'] comes to whatever [m] comes to, when [m] has fuel enough. *)
Definition refines {A} (m m' : M Sc St Obj A) : Prop :=
  forall w out w', m w = (out, w') -> out <> Diverges -> m' w = (out, w').

(** The two interface values a decoder holds. *)
Definition handles (d : Decoder St Obj)
  : option (Transaction St Obj) * option (ObjectStorer St Obj) :=
  (tx d, o d).

(** One entry of the index: the pair [(offset, hash)] in both directions
    and the CRC of the object. *)
Definition insertEntry (offset : Z) (h : Hash) (crc : Z)
    (idx : gmap Z Hash * gmap Hash Z * gmap Hash Z)
  : gmap Z Hash * gmap Hash Z * gmap Hash Z :=
  (<[offset := h]> idx.1.1, <[h := offset]> idx.1.2, <[h := crc]> idx.2).


(** The index that a call which began in [w] can hold before it inserts
    an entry of its own: the index of [w], or the one that the one call of
    [rec] it made has left. *)
Definition indexAfterRecall (rec : M Sc St Obj (@ObjErr Obj)) (w : World Sc St Obj)
    (idx : gmap Z Hash * gmap Hash Z * gmap Hash Z) : Prop :=
  idx = index w \/
  exists wa outb wb, index wa = index w /\ rec wa = (outb, wb) /\ idx = index wb.

(** A pass over a pack: the objects that successive calls of [ReadObject]
    returned without an error, in order.  Between two calls the decoder
    touches nothing but the storage. *)
Inductive decodes (fuel : nat) : list Obj -> World Sc St Obj -> World Sc St Obj -> Prop :=
| decodes_nil w : decodes fuel [] w w
| decodes_cons obj objs w w1 t w2 :
    ReadObject sc api fuel w = (Returns (Some obj, None), w1) ->
    decodes fuel objs (with_sto t w1) w2 ->
    decodes fuel (obj :: objs) w w2.

(** What [Commit] returns for the transaction that [Begin] hands out in
    [w], when the storage is a [Transactioner]. *)
Definition commitOf (w : World Sc St Obj) : option (option Err * St) :=
  match o (dec w) with
  | Some st =>
      match asTransactioner st with
      | Some begin => let '(tx, t) := begin (sto w) in Some (Commit tx t)
      | None => None
      end
  | None => None
  end.

End Vocabulary.

(** ** A scanner, objects and a storage to run the decoder on

    The collaborators are interfaces; the ones below implement them the
    simplest way, so that the decoder can be run on concrete packs. *)

Module Fixture.

(** An object held in memory: type, declared size and content. *)
Record MemObj := {
  mType : ObjectType;
  mSize : Z;
  mCont : bytes
}.

Definition tagOf (t : ObjectType) : N :=
  match t with
  | InvalidObject => 0
  | CommitObject => 1
  | TreeObject => 2
  | BlobObject => 3
  | TagObject => 4
  | OFSDeltaObject => 6
  | REFDeltaObject => 7
  | AnyObject => 8
  end%N.

(** A hash of type and content: equal objects hash alike. *)
Definition memHash (ob : MemObj) : Hash :=
  fold_left (fun h b => (h * 257 + Byte.to_N b + 1)%N) (mCont ob) (tagOf (mType ob)).

Definition memTypeString (t : ObjectType) : string :=
  match t with
  | CommitObject => "commit"
  | TreeObject => "tree"
  | BlobObject => "blob"
  | TagObject => "tag"
  | OFSDeltaObject => "ofs-delta"
  | REFDeltaObject => "ref-delta"
  | AnyObject => "any"
  | InvalidObject => "unknown"
  end.

(** Modelled from the spec: objects held in memory, after
    [plumbing.MemoryObject], whose writer never fails.  The delta
    interpreter of the examples is the simplest one: a delta is the text
    to append to the base. *)
Definition memAPI : ObjectAPI MemObj := {|
  MemoryObject := {| mType := InvalidObject; mSize := 0; mCont := [] |};
  SetSize := fun n ob => {| mType := mType ob; mSize := n; mCont := mCont ob |};
  SetType := fun t ob => {| mType := t; mSize := mSize ob; mCont := mCont ob |};
  GetType := mType;
  HashOf := memHash;
  Writer := fun _ => None;
  Write := fun data ob =>
    {| mType := mType ob; mSize := mSize ob; mCont := mCont ob ++ data |};
  ApplyDelta := fun target base delta =>
    ({| mType := mType target; mSize := mSize target; mCont := mCont base ++ delta |}, None);
  typeString := memTypeString
|}.

(** One object of a pack: its header, its inflated body, its CRC and the
    offset at which the next object starts. *)
Record PackEntry := {
  eHeader : ObjectHeader;
  eBody : bytes;
  eCRC : Z;
  eNext : Z
}.

Record Pack := {
  pCount : N;
  pEntries : list PackEntry;
  pChecksum : Hash
}.

(** The scanner's state: the cursor, how many seeks the reader still
    serves before it fails, and the offsets sought so far. *)
Record ScanState := {
  cursor : Z;
  seeksLeft : nat;
  seekLog : list Z
}.

Definition entryAt (p : Pack) (off : Z) : option PackEntry :=
  find (fun e => bool_decide (Offset (eHeader e) = off)) (pEntries p).

Definition moveTo (off : Z) (s : ScanState) : ScanState :=
  {| cursor := off; seeksLeft := seeksLeft s; seekLog := seekLog s |}.

(** A failed seek leaves the cursor where it is. *)
Definition packSeek (off : Z) (s : ScanState) : (Z * option Err) * ScanState :=
  match seeksLeft s with
  | O => ((-1, Some (ExternalError "seek failed")), s)
  | S n => ((cursor s, None),
            {| cursor := off; seeksLeft := n; seekLog := seekLog s ++ [off] |})
  end.

(** Modelled from the spec: a Scanner over a pack held in memory.
    [Header] leaves the cursor past the 12 bytes of the pack header,
    [NextObjectHeader] yields the header of the object at the cursor,
    [NextObject] yields its body and CRC and moves to the next object,
    [Seek] returns the position it leaves. *)
Definition packScanner (seekable : bool) (p : Pack) : Scanner ScanState := {|
  IsSeekable := seekable;
  Header := fun s => ((2, pCount p, None), moveTo 12 s);
  NextObjectHeader := fun s =>
    match entryAt p (cursor s) with
    | Some e => (inl (eHeader e), s)
    | None => (inr (ExternalError "EOF"), s)
    end;
  NextObject := fun s =>
    match entryAt p (cursor s) with
    | Some e => ((eBody e, eCRC e, None), moveTo (eNext e) s)
    | None => (([], 0, Some (ExternalError "EOF")), s)
    end;
  Seek := packSeek;
  Checksum := fun s => ((pChecksum p, None), s);
  Close := fun s => (None, s)
|}.

(** Modelled from the spec: a storage in memory.  [setsLeft] is the number
    of [SetObject] calls it still accepts; a transaction stages its objects
    until [Commit], and [Rollback] drops what is staged. *)
Record MemStore := {
  committed : list MemObj;
  staged : list MemObj;
  setsLeft : nat;
  rollbacks : nat;
  rollbackFails : bool
}.

Definition lookupObj (h : Hash) (l : list MemObj) : option MemObj * option Err :=
  match find (fun ob => bool_decide (memHash ob = h)) l with
  | Some ob => (Some ob, None)
  | None => (None, Some ErrObjectNotFound)
  end.

Definition memSet (inTx : bool) (obj : option MemObj) (t : MemStore)
  : (Hash * option Err) * MemStore :=
  match obj, setsLeft t with
  | Some ob, S n =>
      ((memHash ob, None),
       {| committed := if inTx then committed t else committed t ++ [ob];
          staged := if inTx then staged t ++ [ob] else staged t;
          setsLeft := n; rollbacks := rollbacks t; rollbackFails := rollbackFails t |})
  | Some _, O => ((ZeroHash, Some (ExternalError "storage full")), t)
  | None, _ => ((ZeroHash, Some (ExternalError "nil object")), t)
  end.

Definition memTx : Transaction MemStore MemObj := {|
  txSetObject := memSet true;
  txObject := fun _ h t => (lookupObj h (staged t ++ committed t), t);
  Commit := fun t =>
    (None, {| committed := committed t ++ staged t; staged := [];
              setsLeft := setsLeft t; rollbacks := rollbacks t;
              rollbackFails := rollbackFails t |});
  Rollback := fun t =>
    (if rollbackFails t then Some (ExternalError "rollback failed") else None,
     {| committed := committed t; staged := [];
        setsLeft := setsLeft t; rollbacks := Datatypes.S (rollbacks t);
        rollbackFails := rollbackFails t |})
|}.

Definition memStorer (transactional : bool) : ObjectStorer MemStore MemObj := {|
  NewObject := fun t => (MemoryObject memAPI, t);
  SetObject := memSet false;
  Object := fun _ h t => (lookupObj h (committed t), t);
  asTransactioner := if transactional then Some (fun t => (memTx, t)) else None
|}.

Definition emptyStore (sets : nat) (rollbackFails : bool) : MemStore :=
  {| committed := []; staged := []; setsLeft := sets; rollbacks := 0;
     rollbackFails := rollbackFails |}.

Definition blobHeader (off len : Z) : ObjectHeader :=
  {| Type_ := BlobObject; Offset := off; Length := len;
     Reference := ZeroHash; OffsetReference := 0 |}.

Definition ofsDeltaHeader (off len ref : Z) : ObjectHeader :=
  {| Type_ := OFSDeltaObject; Offset := off; Length := len;
     Reference := ZeroHash; OffsetReference := ref |}.

Definition text (s : string) : bytes := String.list_byte_of_string s.

(** A pack with no object. *)
Definition emptyPack : Pack :=
  {| pCount := 0; pEntries := []; pChecksum := 4242%N |}.

(** Three blobs, ["a"], ["bb"] and ["ccc"]. *)
Definition threeBlobs : Pack :=
  {| pCount := 3;
     pEntries :=
       [ {| eHeader := blobHeader 12 1; eBody := text "a"; eCRC := 101; eNext := 20 |};
         {| eHeader := blobHeader 20 2; eBody := text "bb"; eCRC := 202; eNext := 30 |};
         {| eHeader := blobHeader 30 3; eBody := text "ccc"; eCRC := 303; eNext := 42 |} ];
     pChecksum := 777%N |}.

(** The blob ["a"] twice. *)
Definition twiceA : Pack :=
  {| pCount := 2;
     pEntries :=
       [ {| eHeader := blobHeader 12 1; eBody := text "a"; eCRC := 101; eNext := 20 |};
         {| eHeader := blobHeader 20 1; eBody := text "a"; eCRC := 102; eNext := 28 |} ];
     pChecksum := 555%N |}.

(** The blob ["hello"] at offset 12 and, at offset 40, an OfsDelta whose
    header carries the offset reference [ref]. *)
Definition helloDelta (ref : Z) : Pack :=
  {| pCount := 2;
     pEntries :=
       [ {| eHeader := blobHeader 12 5; eBody := text "hello"; eCRC := 11; eNext := 40 |};
         {| eHeader := ofsDeltaHeader 40 11 ref; eBody := text " world"; eCRC := 22;
            eNext := 60 |} ];
     pChecksum := 999%N |}.

(** The world of a decoder just built by [NewDecoder sc o]. *)
Definition start {Sc St Obj} (sc : Scanner Sc) (o : option (ObjectStorer St Obj))
    (s : Sc) (t : St) : option (World Sc St Obj) :=
  match NewDecoder sc o with
  | (Some d, _) => Some {| dec := d; scn := s; sto := t |}
  | (None, _) => None
  end.

(** The same world, written out. *)
Definition fresh {Sc St Obj} (o : option (ObjectStorer St Obj)) (s : Sc) (t : St)
  : World Sc St Obj :=
  {| dec := {| o := o; tx := None;
               offsetToHash := ∅; hashToOffset := ∅; crcs := ∅ |};
     scn := s; sto := t |}.

Definition noStorer : option (ObjectStorer MemStore MemObj) := None.

Definition scanAt (off : Z) (seeks : nat) : ScanState :=
  {| cursor := off; seeksLeft := seeks; seekLog := [] |}.


(** Objects that give no writer. *)
Definition noWriterAPI : ObjectAPI MemObj := {|
  MemoryObject := MemoryObject memAPI;
  SetSize := SetSize memAPI;
  SetType := SetType memAPI;
  GetType := GetType memAPI;
  HashOf := HashOf memAPI;
  Writer := fun _ => Some (ExternalError "no writer");
  Write := Write memAPI;
  ApplyDelta := ApplyDelta memAPI;
  typeString := typeString memAPI
|}.

(** A scanner whose bodies do not inflate. *)
Definition brokenBody (sc : Scanner ScanState) : Scanner ScanState := {|
  IsSeekable := IsSeekable sc;
  Header := Header sc;
  NextObjectHeader := NextObjectHeader sc;
  NextObject := fun s => (([], 0, Some ErrZLib), s);
  Seek := Seek sc;
  Checksum := Checksum sc;
  Close := Close sc
|}.

(** A scanner that does not find the signature of a pack. *)
Definition brokenHeader (sc : Scanner ScanState) : Scanner ScanState := {|
  IsSeekable := IsSeekable sc;
  Header := fun s => ((0, 0%N, Some (ExternalError "malformed pack file signature")), s);
  NextObjectHeader := NextObjectHeader sc;
  NextObject := NextObject sc;
  Seek := Seek sc;
  Checksum := Checksum sc;
  Close := Close sc
|}.

(** A pack whose one object carries a type that is none of the six. *)
Definition oddType : Pack :=
  {| pCount := 1;
     pEntries :=
       [ {| eHeader := {| Type_ := InvalidObject; Offset := 12; Length := 1;
                          Reference := ZeroHash; OffsetReference := 0 |};
            eBody := text "x"; eCRC := 9; eNext := 20 |} ];
     pChecksum := 333%N |}.

Definition helloBlob : MemObj :=
  {| mType := BlobObject; mSize := 5; mCont := text "hello" |}.

(** The blob ["hello"] at offset 12 and, at offset 40, a RefDelta that
    refers to it by its hash. *)
Definition helloRefDelta : Pack :=
  {| pCount := 2;
     pEntries :=
       [ {| eHeader := blobHeader 12 5; eBody := text "hello"; eCRC := 11; eNext := 40 |};
         {| eHeader := {| Type_ := REFDeltaObject; Offset := 40; Length := 11;
                          Reference := memHash helloBlob; OffsetReference := 0 |};
            eBody := text " world"; eCRC := 22; eNext := 60 |} ];
     pChecksum := 888%N |}.


End Fixture.

(** ** A pass and the storage

    [decodes] leaves open what happens to the storage between two objects;
    [stores] follows it: each object read is handed to [put], the
    [SetObject] of the storage or of the transaction, which accepts it. *)

Section Passes.

Context {Sc St Obj : Type}.
Variable sc : Scanner Sc.
Variable api : ObjectAPI Obj.

Inductive stores (fuel : nat) (put : option Obj -> St -> (Hash * option Err) * St)
  : list Obj -> World Sc St Obj -> World Sc St Obj -> Prop :=
| stores_nil w : stores fuel put [] w w
| stores_cons obj objs w w1 h t w2 :
    ReadObject sc api fuel w = (Returns (Some obj, None), w1) ->
    put (Some obj) (sto w1) = ((h, None), t) ->
    stores fuel put objs (with_sto t w1) w2 ->
    stores fuel put (obj :: objs) w w2.

(** The keys of the three maps of an index. *)
Definition indexKeys (idx : gmap Z Hash * gmap Hash Z * gmap Hash Z)
  : gset Z * gset Hash * gset Hash :=
  (dom idx.1.1, dom idx.1.2, dom idx.2).

Definition keysIncluded (a b : gset Z * gset Hash * gset Hash) : Prop :=
  a.1.1 ⊆ b.1.1 /\ a.1.2 ⊆ b.1.2 /\ a.2 ⊆ b.2.

(** A call drops no key of the index. *)
Definition grows {A} (m : M Sc St Obj A) : Prop :=
  forall w, keysIncluded (indexKeys (index w)) (indexKeys (index (snd (m w)))).

(** The header carries one of the four types of a plain object. *)
Definition isRegular (t : ObjectType) : bool :=
  match t with
  | CommitObject | TreeObject | BlobObject | TagObject => true
  | _ => false
  end.

Definition isDelta (t : ObjectType) : bool :=
  match t with
  | OFSDeltaObject | REFDeltaObject => true
  | _ => false
  end.

End Passes.

(** ** Iterators over objects (plumbing/storer/object.go) *)

(** The errors that the iterators tell apart: [io.EOF], [ErrStop], and
    any other error value. *)
Inductive error :=
| EOF
| ErrStop
| OtherError (e : Err).

#[global] Instance error_eq_dec : EqDecision error.
Proof. solve_decision. Defined.

(** [bareIterator]: [Next] and [Close], over the state [I] of the
    iterator and the state [T] of everything else that a call can touch,
    the storage among it.  [Ob] is the type of the values of
    [plumbing.Object]. *)
Record bareIterator (I T Ob : Type) := {
  iterNext : I -> T -> (Ob * option error) * (I * T);
  iterClose : I -> T -> I * T
}.
Arguments iterNext {I T Ob} _ _ _.
Arguments iterClose {I T Ob} _ _ _.

Section Iterators.

Context {T Ob : Type}.

(** The nil [plumbing.Object]. *)
Variable nilObject : Ob.

(** [storage.Object], the one method of the storage that
    [ObjectLookupIter] calls. *)
Definition ObjectGetter : Type :=
  ObjectType -> Hash -> T -> (Ob * option error) * T.

(** [type ObjectLookupIter struct].  [pos] is an [int] that starts at 0
    and is only incremented or set to [len(series)]: a natural number. *)
Record ObjectLookupIter := {
  storage : ObjectGetter;
  series : list Hash;
  t : ObjectType;
  pos : nat
}.

Definition NewObjectLookupIter (storage : ObjectGetter) (t : ObjectType)
    (series : list Hash) : ObjectLookupIter :=
  {| storage := storage; series := series; t := t; pos := 0 |}.

Definition ObjectLookupIter_Next (iter : ObjectLookupIter) (st : T)
  : (Ob * option error) * (ObjectLookupIter * T) :=
  match series iter !! pos iter with
  | None => ((nilObject, Some EOF), (iter, st))
  | Some hash =>
      let '((obj, err), st') := storage iter (t iter) hash st in
      let iter' :=
        match err with
        | None => {| storage := storage iter; series := series iter; t := t iter;
                     pos := S (pos iter) |}
        | Some _ => iter
        end in
      ((obj, err), (iter', st'))
  end.

Definition ObjectLookupIter_Close (iter : ObjectLookupIter) (st : T)
  : ObjectLookupIter * T :=
  ({| storage := storage iter; series := series iter; t := t iter;
      pos := length (series iter) |}, st).

(** [type ObjectSliceIter struct]: the slice [series]; [pos] is never
    used. *)
Definition ObjectSliceIter : Type := list Ob.

Definition NewObjectSliceIter (series : list Ob) : ObjectSliceIter := series.

Definition ObjectSliceIter_Next (iter : ObjectSliceIter) (st : T)
  : (Ob * option error) * (ObjectSliceIter * T) :=
  match iter with
  | [] => ((nilObject, Some EOF), (iter, st))
  | obj :: rest => ((obj, None), (rest, st))
  end.

Definition ObjectSliceIter_Close (iter : ObjectSliceIter) (st : T)
  : ObjectSliceIter * T :=
  ([], st).

(** [type MultiObjectIter struct]: the slice [iters] of iterators, each
    behind the interface [sub].  An iterator that [Next] drops from the
    slice is no longer seen from here. *)
Section Multi.

Context {I : Type}.
Variable sub : bareIterator I T Ob.

Definition MultiObjectIter : Type := list I.

Definition NewMultiObjectIter (iters : list I) : MultiObjectIter := iters.

Fixpoint MultiObjectIter_Next (iters : MultiObjectIter) (st : T)
  : (Ob * option error) * (MultiObjectIter * T) :=
  match iters with
  | [] => ((nilObject, Some EOF), (iters, st))
  | i :: rest =>
      let '((obj, err), (i', st')) := iterNext sub i st in
      if bool_decide (err = Some EOF) then
        let '(_, st'') := iterClose sub i' st' in
        MultiObjectIter_Next rest st''
      else ((obj, err), (i' :: rest, st'))
  end.

Fixpoint MultiObjectIter_Close (iters : MultiObjectIter) (st : T)
  : MultiObjectIter * T :=
  match iters with
  | [] => ([], st)
  | i :: rest =>
      let '(i', st') := iterClose sub i st in
      let '(rest', st'') := MultiObjectIter_Close rest st' in
      (i' :: rest', st'')
  end.

End Multi.

(** [ForEachIterator(iter, cb)].  The callback acts on [T]; [fuel] bounds
    the number of turns of the [for] loop, and [None] is the loop still
    running when the fuel is spent.  [defer iter.Close()] runs when the
    loop returns. *)
Section ForEach.

Context {I : Type}.
Variable iter : bareIterator I T Ob.
Variable cb : Ob -> T -> option error * T.

Fixpoint ForEachIterator_loop (fuel : nat) (i : I) (st : T)
  : option (option error * (I * T)) :=
  match fuel with
  | 0%nat => None
  | S fuel' =>
      let '((obj, err), (i', st')) := iterNext iter i st in
      match err with
      | Some e =>
          if bool_decide (e = EOF) then Some (None, (i', st'))
          else Some (Some e, (i', st'))
      | None =>
          let '(cerr, st'') := cb obj st' in
          match cerr with
          | Some e =>
              if bool_decide (e = ErrStop) then Some (None, (i', st''))
              else Some (Some e, (i', st''))
          | None => ForEachIterator_loop fuel' i' st''
          end
      end
  end.

Definition ForEachIterator (fuel : nat) (i : I) (st : T)
  : option (option error * (I * T)) :=
  match ForEachIterator_loop fuel i st with
  | None => None
  | Some (r, (i', st')) => Some (r, iterClose iter i' st')
  end.

(** What [ForEachIterator] does over the objects of a list: the callback
    on each in turn, until it returns an error; [ErrStop] ends the walk
    with no error. *)
Fixpoint visit (l : list Ob) (st : T) : option error * T :=
  match l with
  | [] => (None, st)
  | obj :: rest =>
      let '(cerr, st') := cb obj st in
      match cerr with
      | Some e => (if bool_decide (e = ErrStop) then None else Some e, st')
      | None => visit rest st'
      end
  end.

(** The same over the objects that a storage holds for a list of hashes:
    the walk ends with the first error of the storage, which is returned
    unless it is [io.EOF]. *)
Fixpoint visitHashes (get : ObjectGetter) (ty : ObjectType) (l : list Hash) (st : T)
  : option error * T :=
  match l with
  | [] => (None, st)
  | hash :: rest =>
      let '((obj, err), st') := get ty hash st in
      match err with
      | Some e => (if bool_decide (e = EOF) then None else Some e, st')
      | None =>
          let '(cerr, st'') := cb obj st' in
          match cerr with
          | Some e => (if bool_decide (e = ErrStop) then None else Some e, st'')
          | None => visitHashes get ty rest st''
          end
      end
  end.

End ForEach.

(** The two iterators of the file behind the interface, and their
    [ForEach] methods. *)
Definition ObjectLookupIter_iter : bareIterator ObjectLookupIter T Ob :=
  {| iterNext := ObjectLookupIter_Next; iterClose := ObjectLookupIter_Close |}.

Definition ObjectSliceIter_iter : bareIterator ObjectSliceIter T Ob :=
  {| iterNext := ObjectSliceIter_Next; iterClose := ObjectSliceIter_Close |}.

Definition MultiObjectIter_iter {I} (sub : bareIterator I T Ob)
  : bareIterator (list I) T Ob :=
  {| iterNext := MultiObjectIter_Next sub; iterClose := MultiObjectIter_Close sub |}.

Definition ObjectLookupIter_ForEach := ForEachIterator ObjectLookupIter_iter.

Definition ObjectSliceIter_ForEach := ForEachIterator ObjectSliceIter_iter.

Definition MultiObjectIter_ForEach {I} (sub : bareIterator I T Ob) :=
  ForEachIterator (MultiObjectIter_iter sub).

End Iterators.

Module IterFixture.

(** For the iterators: objects are numbers, the world is the list of the
    numbers seen so far.  The storage holds the object [n] under each hash
    [n] below 10; the callback notes each object and stops at 7. *)
Definition smallStorage : ObjectType -> Hash -> list nat -> (nat * option error) * list nat :=
  fun _ h st =>
    if (h <? 10)%N then ((N.to_nat h, None), st)
    else ((0%nat, Some (OtherError ErrObjectNotFound)), st).

Definition noteUntil7 (x : nat) (st : list nat) : option error * list nat :=
  (if (x =? 7)%nat then Some ErrStop else None, st ++ [x]).

End IterFixture.

(** ** Properties *)

Section Properties.

Context {Sc St Obj : Type}.
Variable sc : Scanner Sc.
Variable api : ObjectAPI Obj.

Local Abbreviation W := (World Sc St Obj).
Local Abbreviation Mon := (M Sc St Obj).

(** *** Frame lemmas: what a call leaves alone *)

Section Keeps.

Context {X : Type} (f : Decoder St Obj -> X).

Local Abbreviation part := (fun w : W => f (dec w)).

Lemma keeps_ret {A} (a : A) : keeps part (ret a).
Proof. intros w; reflexivity. Qed.

Lemma keeps_raise {A} p : keeps part (raise p : Mon A).
Proof. intros w; reflexivity. Qed.

Lemma keeps_getDec : keeps part getDec.
Proof. intros w; reflexivity. Qed.

Lemma keeps_diverges {A} : keeps part (fun w => (Diverges, w) : outcome A * W).
Proof. intros w; reflexivity. Qed.

Lemma keeps_bind {A B} (m : Mon A) (k : A -> Mon B) :
  keeps part m -> (forall a, keeps part (k a)) -> keeps part (bind m k).
Proof.
  intros Hm Hk w. unfold bind. specialize (Hm w).
  destruct (m w) as [[a|p|] w1]; simpl in *; try assumption.
  rewrite Hk. assumption.
Qed.

Lemma keeps_defer {A B} (body : Mon A) (deferred : Mon B) :
  keeps part body -> keeps part deferred -> keeps part (defer body deferred).
Proof.
  intros Hb Hd w. unfold defer. specialize (Hb w).
  destruct (body w) as [[a|p|] w1]; simpl in *; try assumption;
    rewrite Hd; assumption.
Qed.

Lemma keeps_scan {A} (g : Sc -> A * Sc) : keeps part (scan g).
Proof. intros w. unfold scan. destruct (g (scn w)); reflexivity. Qed.

Lemma keeps_store {A} (g : St -> A * St) : keeps part (store g).
Proof. intros w. unfold store. destruct (g (sto w)); reflexivity. Qed.

Lemma keeps_d_tx {A} (g : Transaction St Obj -> St -> A * St) : keeps part (d_tx g).
Proof.
  intros w. unfold d_tx. destruct (tx (dec w)); [apply keeps_store | reflexivity].
Qed.

Lemma keeps_d_o {A} (g : ObjectStorer St Obj -> St -> A * St) : keeps part (d_o g).
Proof.
  intros w. unfold d_o. destruct (o (dec w)); [apply keeps_store | reflexivity].
Qed.

Lemma keeps_newObject : keeps part (newObject api).
Proof.
  intros w. unfold newObject. destruct (o (dec w)); [apply keeps_store | reflexivity].
Qed.

Lemma keeps_asTransactioner_ : keeps part asTransactioner_.
Proof.
  intros w. unfold asTransactioner_.
  destruct (o (dec w)) as [st|]; [destruct (asTransactioner st)|]; reflexivity.
Qed.

End Keeps.

(** Breaks a call down along its text. *)
Ltac keeps_step :=
  first
    [ apply keeps_ret | apply keeps_raise | apply keeps_getDec
    | apply keeps_diverges | apply keeps_scan | apply keeps_store
    | apply keeps_d_tx | apply keeps_d_o | apply keeps_newObject
    | apply keeps_asTransactioner_ | assumption
    | apply keeps_bind; [| intros ]
    | apply keeps_defer
    | progress cbv zeta
    | match goal with
      | |- keeps _ (match ?x with _ => _ end) => destruct x
      end ].

Ltac keeps_tac := repeat keeps_step.

Lemma keeps_ReadObjectAt {X} (f : Decoder St Obj -> X) rec offset :
  keeps (fun w : W => f (dec w)) rec ->
  keeps (fun w : W => f (dec w)) (ReadObjectAt sc rec offset).
Proof. intros Hrec. unfold ReadObjectAt. keeps_tac. Qed.

Lemma keeps_recallByOffset {X} (f : Decoder St Obj -> X) rec offset :
  keeps (fun w : W => f (dec w)) rec ->
  keeps (fun w : W => f (dec w)) (recallByOffset sc rec offset).
Proof.
  intros Hrec. unfold recallByOffset.
  destruct (IsSeekable sc); [by apply keeps_ReadObjectAt | keeps_tac].
Qed.

Lemma keeps_recallByHash {X} (f : Decoder St Obj -> X) rec h :
  keeps (fun w : W => f (dec w)) rec ->
  keeps (fun w : W => f (dec w)) (recallByHash sc rec h).
Proof.
  intros Hrec. unfold recallByHash.
  destruct (IsSeekable sc); keeps_tac; by apply keeps_ReadObjectAt.
Qed.

Lemma keeps_applyBase {X} (f : Decoder St Obj -> X) obj base buf crc :
  keeps (fun w : W => f (dec w)) (applyBase api obj base buf crc).
Proof. unfold applyBase. keeps_tac. Qed.

Lemma keeps_fillObjectContent {X} (f : Decoder St Obj -> X) rec h obj :
  keeps (fun w : W => f (dec w)) rec ->
  keeps (fun w : W => f (dec w)) (fillObjectContent sc api rec h obj).
Proof.
  intros Hrec.
  unfold fillObjectContent, fillRegularObjectContent,
    fillOFSDeltaObjectContent, fillREFDeltaObjectContent.
  destruct (Type_ h); keeps_tac;
    first [ by apply keeps_recallByOffset | by apply keeps_recallByHash
          | apply keeps_applyBase ].
Qed.

(** Nothing that [ReadObject] does assigns [d.tx] or [d.o]. *)
Lemma keeps_tx_setOffset h offset :
  keeps (fun w : W => handles (dec w)) (setOffset h offset).
Proof. intros w; reflexivity. Qed.

Lemma keeps_tx_setCRC h crc :
  keeps (fun w : W => handles (dec w)) (setCRC h crc).
Proof. intros w; reflexivity. Qed.

Lemma keeps_tx_ReadObject fuel :
  keeps (fun w : W => handles (dec w)) (ReadObject sc api fuel).
Proof.
  induction fuel as [|fuel IH]; simpl; [apply keeps_diverges|].
  unfold ReadObject_body.
  keeps_tac;
    first [ by apply keeps_fillObjectContent
          | apply keeps_tx_setOffset | apply keeps_tx_setCRC ].
Qed.

Lemma keeps_tx_readObjects fuel count :
  keeps (fun w : W => handles (dec w)) (readObjects sc api fuel count).
Proof.
  induction count as [|count IH]; simpl; keeps_tac; apply keeps_tx_ReadObject.
Qed.

Lemma keeps_tx_readObjectsWithObjectStorer fuel count :
  keeps (fun w : W => handles (dec w)) (readObjectsWithObjectStorer sc api fuel count).
Proof.
  induction count as [|count IH]; simpl; keeps_tac; apply keeps_tx_ReadObject.
Qed.

Lemma keeps_tx_readObjectsTxLoop fuel t count :
  keeps (fun w : W => handles (dec w)) (readObjectsTxLoop sc api fuel t count).
Proof.
  induction count as [|count IH]; simpl; keeps_tac; apply keeps_tx_ReadObject.
Qed.

Lemma keeps_tx_doDecode fuel :
  keeps (fun w : W => handles (dec w)) (doDecode sc api fuel).
Proof.
  unfold doDecode, readObjectsWithObjectStorerTx. keeps_tac;
    first [ apply keeps_tx_readObjects | apply keeps_tx_readObjectsWithObjectStorer
          | apply keeps_tx_readObjectsTxLoop ].
Qed.

Lemma keeps_tx_Decode fuel :
  keeps (fun w : W => handles (dec w)) (Decode sc api fuel).
Proof.
  unfold Decode. apply keeps_bind; [apply keeps_tx_doDecode | intros; keeps_tac].
Qed.

Lemma handles_tx (w w' : W) : handles (dec w') = handles (dec w) -> tx (dec w') = tx (dec w).
Proof. unfold handles. intros H. by injection H. Qed.

(** *** ReadObjectAt *)

Lemma ReadObjectAt_not_seekable rec offset (w : W) :
  IsSeekable sc = false ->
  ReadObjectAt sc rec offset w = (Returns (None, Some ErrNonSeekable), w).
Proof. intros H. unfold ReadObjectAt. rewrite H. reflexivity. Qed.

Lemma ReadObjectAt_seek_fails rec offset (w : W) prev e s1 :
  IsSeekable sc = true ->
  Seek sc offset (scn w) = ((prev, Some e), s1) ->
  ReadObjectAt sc rec offset w = (Returns (None, Some e), with_scn s1 w).
Proof.
  intros H Hs. unfold ReadObjectAt, bind, scan. rewrite H. cbn.
  rewrite Hs. reflexivity.
Qed.

(** After the jump, [ReadObjectAt] comes to what [ReadObject] comes to;
    the seek back acts on the scanner only. *)
Lemma ReadObjectAt_jumps rec offset (w : W) prev s1 out w2 :
  IsSeekable sc = true ->
  Seek sc offset (scn w) = ((prev, None), s1) ->
  rec (with_scn s1 w) = (out, w2) ->
  ReadObjectAt sc rec offset w =
    match out with
    | Diverges => (Diverges, w2)
    | _ => (out, with_scn (snd (Seek sc prev (scn w2))) w2)
    end.
Proof.
  intros H Hs Hr. unfold ReadObjectAt, bind, scan, defer, ret.
  rewrite H. cbn. rewrite Hs. cbn. rewrite Hr.
  destruct out as [r|p|]; simpl; try reflexivity;
    destruct (Seek sc prev (scn w2)) as [[q [e|]] s3]; reflexivity.
Qed.

(** C10: no operation of the decoder assigns its [tx] field, which
    [NewDecoder] leaves nil; so every call of a method of [d.tx] is a call
    on a nil [Transaction] and panics: the [Rollback] after a failed
    [SetObject] of the transaction, the lookup of [recallByOffset] on a
    scanner that is not seekable, and the lookup of [recallByHash] when the
    hash has no offset or the scanner is not seekable.  The storage is
    neither asked nor rolled back. *)
Theorem tx_is_never_assigned :
  (forall (o : option (ObjectStorer St Obj)) d,
     NewDecoder sc o = (Some d, None) -> tx d = None) /\
  (forall fuel offset offsets (w : W),
     tx (dec (snd (Decode sc api fuel w))) = tx (dec w) /\
     tx (dec (snd (ReadObject sc api fuel w))) = tx (dec w) /\
     tx (dec (snd (ReadObjectAt sc (ReadObject sc api fuel) offset w))) = tx (dec w) /\
     tx (dec (snd (SetOffsets offsets w))) = tx (dec w) /\
     tx (dec (snd (Offsets w))) = tx (dec w) /\
     tx (dec (snd (CRCs w))) = tx (dec w) /\
     tx (dec (snd (Close_ sc w))) = tx (dec w)) /\
  (forall w : W, tx (dec w) = None ->
     (forall fuel t n obj w1 h e t2,
        ReadObject sc api fuel w = (Returns (obj, None), w1) ->
        txSetObject t obj (sto w1) = ((h, Some e), t2) ->
        readObjectsTxLoop sc api fuel t (S n) w
        = (Panics NilDereference, with_sto t2 w1)) /\
     (forall rec offset h,
        IsSeekable sc = false ->
        offsetToHash (dec w) !! offset = Some h ->
        recallByOffset sc rec offset w = (Panics NilDereference, w)) /\
     (forall rec h,
        IsSeekable sc = false \/ hashToOffset (dec w) !! h = None ->
        recallByHash sc rec h w = (Panics NilDereference, w))).
Proof.
  split; [|split].
  - intros st d. unfold NewDecoder.
    destruct (negb (IsSeekable sc) && isNil st); intros [= <-]; reflexivity.
  - intros fuel offset offsets w. repeat split.
    + apply handles_tx, (keeps_tx_Decode fuel w).
    + apply handles_tx, (keeps_tx_ReadObject fuel w).
    + apply handles_tx.
      apply (keeps_ReadObjectAt handles _ offset (keeps_tx_ReadObject fuel) w).
    + unfold Close_, scan. destruct (Close sc (scn w)); reflexivity.
  - intros w Hnil. repeat split.
    + intros fuel t n obj w1 h e t2 Hread Hset.
      simpl. unfold bind at 1. rewrite Hread.
      unfold bind at 1, store at 1. rewrite Hset.
      unfold bind, d_tx. cbn [dec with_sto].
      pose proof (keeps_tx_ReadObject fuel w) as Hk.
      rewrite Hread in Hk. apply handles_tx in Hk. simpl in Hk.
      rewrite Hk, Hnil. reflexivity.
    + intros rec offset h Hseek Hoff.
      unfold recallByOffset, bind, getDec, d_tx. rewrite Hseek, Hoff, Hnil.
      reflexivity.
    + intros rec h Hcase.
      unfold recallByHash, bind, getDec, d_tx.
      destruct Hcase as [Hseek | Hoff].
      * rewrite Hseek, Hnil. reflexivity.
      * destruct (IsSeekable sc); rewrite ?Hoff, Hnil; reflexivity.
Qed.

(** C8: [NewDecoder] fails with [ErrNonSeekable] exactly when the scanner
    is not seekable and no storage is given; with a scanner that is not
    seekable and a storage, it succeeds, and every [ReadObjectAt] that
    follows fails with [ErrNonSeekable]. *)
Theorem NewDecoder_non_seekable :
  (forall o : option (ObjectStorer St Obj),
     (NewDecoder sc o = (None, Some ErrNonSeekable)
      <-> IsSeekable sc = false /\ o = None) /\
     (~ (IsSeekable sc = false /\ o = None) ->
      exists d, NewDecoder sc o = (Some d, None))) /\
  (IsSeekable sc = false ->
   forall st : ObjectStorer St Obj,
     (exists d, NewDecoder sc (Some st) = (Some d, None) /\ o d = Some st) /\
     (forall fuel offset (w : W),
        ReadObjectAt sc (ReadObject sc api fuel) offset w
        = (Returns (None, Some ErrNonSeekable), w))).
Proof.
  split.
  - intros st. unfold NewDecoder.
    destruct (IsSeekable sc), st as [st|]; simpl; repeat split;
      try discriminate; try (intros [? ?]; discriminate);
      try (intros _; eexists; reflexivity);
      intros Hn; exfalso; apply Hn; split; reflexivity.
  - intros Hseek st. split.
    + unfold NewDecoder. rewrite Hseek. simpl. eexists. split; reflexivity.
    + intros fuel offset w. by apply ReadObjectAt_not_seekable.
Qed.

(** C4, as the code has it: when the scanner is not seekable
    [ReadObjectAt] leaves it alone; when the jump to [offset] succeeds and
    the seek back succeeds, the cursor after the call is the cursor before
    it, whether [ReadObject] returned an object, returned an error or
    panicked.  [position] is the cursor of a scanner state, and a
    successful [Seek] returns the position it left and moves to the
    offset it is given. *)
Theorem ReadObjectAt_restores_cursor (position : Sc -> Z) :
  (forall offset s prev s',
     Seek sc offset s = ((prev, None), s') ->
     prev = position s /\ position s' = offset) ->
  forall fuel offset (w : W),
    (IsSeekable sc = false ->
     scn (snd (ReadObjectAt sc (ReadObject sc api fuel) offset w)) = scn w) /\
    (forall prev s1 out w2 back s3,
       IsSeekable sc = true ->
       Seek sc offset (scn w) = ((prev, None), s1) ->
       ReadObject sc api fuel (with_scn s1 w) = (out, w2) ->
       out <> Diverges ->
       Seek sc prev (scn w2) = ((back, None), s3) ->
       ReadObjectAt sc (ReadObject sc api fuel) offset w = (out, with_scn s3 w2) /\
       position (scn (with_scn s3 w2)) = position (scn w)).
Proof.
  intros Hseek fuel offset w. split.
  - intros Hns. by rewrite ReadObjectAt_not_seekable.
  - intros prev s1 out w2 back s3 Hs Hjump Hread Hout Hback.
    rewrite (ReadObjectAt_jumps _ _ _ _ _ _ _ Hs Hjump Hread), Hback.
    destruct (Hseek _ _ _ _ Hjump) as [-> _].
    destruct (Hseek _ _ _ _ Hback) as [_ Hpos].
    split; [by destruct out | exact Hpos].
Qed.

(** *** The index *)

Lemma bind_inv {A B} (m : Mon A) (k : A -> Mon B) (w : W) out w' :
  bind m k w = (out, w') ->
  (exists a w1, m w = (Returns a, w1) /\ k a w1 = (out, w')) \/
  (exists p, m w = (Panics p, w') /\ out = Panics p) \/
  (m w = (Diverges, w') /\ out = Diverges).
Proof.
  unfold bind. destruct (m w) as [[a|p|] w1]; intros H.
  - left. eauto.
  - right. left. injection H as <- <-. eauto.
  - right. right. injection H as <- <-. eauto.
Qed.

Lemma keeps_index_inv {A} (m : Mon A) (w : W) out w' :
  keeps (fun w : W => indexOf (dec w)) m -> m w = (out, w') -> index w' = index w.
Proof. intros Hk Hm. specialize (Hk w). rewrite Hm in Hk. exact Hk. Qed.

Lemma indexAfterRecall_shift rec (w w1 : W) idx :
  index w1 = index w -> indexAfterRecall rec w1 idx -> indexAfterRecall rec w idx.
Proof.
  intros H [-> | (wa & outb & wb & Ha & Hr & ->)].
  - left. exact H.
  - right. exists wa, outb, wb. repeat split; congruence.
Qed.

Lemma ReadObjectAt_index rec offset (w : W) out w' :
  ReadObjectAt sc rec offset w = (out, w') -> indexAfterRecall rec w (index w').
Proof.
  destruct (IsSeekable sc) eqn:Hs.
  - destruct (Seek sc offset (scn w)) as [[prev [e|]] s1] eqn:Hj.
    + rewrite (ReadObjectAt_seek_fails _ _ _ _ _ _ Hs Hj). intros [= _ <-]. by left.
    + destruct (rec (with_scn s1 w)) as [outb wb] eqn:Hr.
      rewrite (ReadObjectAt_jumps _ _ _ _ _ _ _ Hs Hj Hr). intros H.
      right. exists (with_scn s1 w), outb, wb. repeat split; [exact Hr|].
      destruct outb; injection H as _ <-; reflexivity.
  - rewrite (ReadObjectAt_not_seekable _ _ _ Hs). intros [= _ <-]. by left.
Qed.

Lemma scan_inv {A} (g : Sc -> A * Sc) (w : W) out w' :
  scan g w = (out, w') ->
  out = Returns (fst (g (scn w))) /\ w' = with_scn (snd (g (scn w))) w.
Proof. unfold scan. destruct (g (scn w)). intros [= <- <-]. by split. Qed.

Lemma newObject_inv (w : W) out w' :
  newObject api w = (out, w') ->
  (exists obj, out = Returns obj) /\ scn w' = scn w /\ index w' = index w.
Proof.
  unfold newObject, store. destruct (o (dec w)) as [st|].
  - destruct (NewObject st (sto w)) as [obj t]. intros [= <- <-]. eauto.
  - intros [= <- <-]. eauto.
Qed.

Lemma recallByOffset_index rec offset (w : W) out w' :
  recallByOffset sc rec offset w = (out, w') -> indexAfterRecall rec w (index w').
Proof.
  unfold recallByOffset. destruct (IsSeekable sc).
  - apply ReadObjectAt_index.
  - intros H. left. revert H. apply keeps_index_inv. keeps_tac.
Qed.

Lemma recallByHash_index rec h (w : W) out w' :
  recallByHash sc rec h w = (out, w') -> indexAfterRecall rec w (index w').
Proof.
  unfold recallByHash. destruct (IsSeekable sc).
  - unfold bind at 1, getDec. destruct (hashToOffset (dec w) !! h).
    + apply ReadObjectAt_index.
    + intros H. left. revert H. apply keeps_index_inv. keeps_tac.
  - intros H. left. revert H. apply keeps_index_inv. keeps_tac.
Qed.

(** The tail that the two delta cases share. *)
Lemma delta_tail_index rec (recall : Mon (option Obj * option Err)) obj buf crc
    (w : W) out w' :
  (forall out1 w1, recall w = (out1, w1) -> indexAfterRecall rec w (index w1)) ->
  bind recall (fun '(base, err) =>
     match err with
     | Some e => ret (obj, 0, Some e)
     | None => applyBase api obj base buf crc
     end) w = (out, w') ->
  indexAfterRecall rec w (index w') /\
  (forall obj' crc', out = Returns (obj', crc', None) -> crc' = crc).
Proof.
  intros Hrecall H.
  apply bind_inv in H as [([base err] & w1 & Hm & Hk) | [(p & Hm & ->) | [Hm ->]]].
  - specialize (Hrecall _ _ Hm). destruct err as [e|].
    + injection Hk as <- <-. split; [exact Hrecall | discriminate].
    + unfold applyBase in Hk. destruct base as [b|].
      * destruct (ApplyDelta api (SetType api (GetType api b) obj) b buf) as [obj1 aerr].
        injection Hk as <- <-. split; [exact Hrecall|]. by intros ? ? [= _ <- _].
      * injection Hk as <- <-. split; [exact Hrecall | discriminate].
  - split; [eapply Hrecall, Hm | discriminate].
  - split; [eapply Hrecall, Hm | discriminate].
Qed.

Lemma delta_index rec (recall : Mon (option Obj * option Err)) obj (w : W) out w' :
  (forall w0 out1 w1, recall w0 = (out1, w1) -> indexAfterRecall rec w0 (index w1)) ->
  bind (scan (NextObject sc)) (fun '(buf, crc, err) =>
     match err with
     | Some e => ret (obj, 0, Some e)
     | None =>
         bind recall (fun '(base, err) =>
           match err with
           | Some e => ret (obj, 0, Some e)
           | None => applyBase api obj base buf crc
           end)
     end) w = (out, w') ->
  indexAfterRecall rec w (index w') /\
  (forall obj' crc, out = Returns (obj', crc, None) ->
     exists data s2, NextObject sc (scn w) = ((data, crc, None), s2)).
Proof.
  intros Hrecall H.
  apply bind_inv in H as [([[buf crc] err] & w1 & Hm & Hk) | [(p & Hm & ->) | [Hm ->]]];
    apply scan_inv in Hm as [Hout Hw]; try discriminate.
  injection Hout as Hout.
  assert (Hidx : index w1 = index w) by (subst w1; reflexivity).
  destruct err as [e|].
  - injection Hk as <- <-. split; [by left | discriminate].
  - apply delta_tail_index with (rec := rec) in Hk as [Hi Hc]; [|apply Hrecall].
    split; [by eapply indexAfterRecall_shift|].
    intros obj' crc' Ho. rewrite (Hc _ _ Ho).
    destruct (NextObject sc (scn w)) as [r s2]. simpl in Hout. subst r. eauto.
Qed.

Lemma fillObjectContent_index rec h obj (w : W) out w' :
  fillObjectContent sc api rec h obj w = (out, w') ->
  indexAfterRecall rec w (index w') /\
  (forall obj' crc, out = Returns (obj', crc, None) ->
     exists data s2, NextObject sc (scn w) = ((data, crc, None), s2)).
Proof.
  assert (Hregular : fillRegularObjectContent sc api obj w = (out, w') ->
    indexAfterRecall rec w (index w') /\
    (forall obj' crc, out = Returns (obj', crc, None) ->
       exists data s2, NextObject sc (scn w) = ((data, crc, None), s2))).
  { unfold fillRegularObjectContent. destruct (Writer api obj) as [e|].
    - intros [= <- <-]. split; [by left | discriminate].
    - intros H.
      apply bind_inv in H
        as [([[data crc] err] & w1 & Hm & Hk) | [(p & Hm & ->) | [Hm ->]]];
        apply scan_inv in Hm as [Hout Hw]; try discriminate.
      injection Hout as Hout. injection Hk as <- <-. subst w1.
      split; [by left|]. intros obj' crc' [= _ <- ->].
      destruct (NextObject sc (scn w)) as [r s2]. simpl in Hout. subst r. eauto. }
  unfold fillObjectContent. destruct (Type_ h); try exact Hregular.
  - intros [= <- <-]. split; [by left | discriminate].
  - apply delta_index. intros w0 out1 w1. apply recallByOffset_index.
  - apply delta_index. intros w0 out1 w1. apply recallByHash_index.
  - intros [= <- <-]. split; [by left | discriminate].
Qed.

Lemma insertEntry_lookup offset h crc idx :
  (insertEntry offset h crc idx).1.1 !! offset = Some h /\
  (insertEntry offset h crc idx).1.2 !! h = Some offset /\
  (insertEntry offset h crc idx).2 !! h = Some crc.
Proof. unfold insertEntry. simpl. by rewrite !lookup_insert_eq. Qed.

(** [ReadObject], one level of it: the index is written once, by the call
    that succeeds, and after everything else it does. *)
Lemma ReadObject_body_index rec (w : W) out w' :
  ReadObject_body sc api rec w = (out, w') ->
  match out with
  | Returns (obj, None) =>
      exists ob h s1 data crc s2 idx,
        obj = Some ob /\
        NextObjectHeader sc (scn w) = (inl h, s1) /\
        NextObject sc s1 = ((data, crc, None), s2) /\
        indexAfterRecall rec w idx /\
        index w' = insertEntry (Offset h) (HashOf api ob) crc idx
  | _ => indexAfterRecall rec w (index w')
  end.
Proof.
  unfold ReadObject_body. intros H.
  apply bind_inv in H as [(hr & w1 & Hm & Hk) | [(p & Hm & ->) | [Hm ->]]];
    apply scan_inv in Hm as [Hout Hw]; try discriminate.
  injection Hout as Hout.
  assert (Hidx1 : index w1 = index w) by (subst w1; reflexivity).
  assert (Hscn1 : scn w1 = snd (NextObjectHeader sc (scn w))) by (subst w1; reflexivity).
  destruct hr as [h|e].
  2:{ injection Hk as <- <-. by left. }
  apply bind_inv in Hk as [(obj0 & w2 & Hm & Hk) | [(p & Hm & ->) | [Hm ->]]];
    apply newObject_inv in Hm as ([obj0' Hobj] & Hscn2 & Hidx2); try discriminate.
  apply bind_inv in Hk as [([[obj crc] err] & w3 & Hm & Hk) | [(p & Hm & ->) | [Hm ->]]];
    apply (fillObjectContent_index rec) in Hm as [Hi Hc];
    apply (indexAfterRecall_shift rec w) in Hi; try congruence; try exact Hi.
  destruct err as [e|].
  { injection Hk as <- <-. exact Hi. }
  unfold bind, setOffset, setCRC, ret in Hk. injection Hk as <- <-.
  destruct (Hc _ _ eq_refl) as (data & s2 & Hnext).
  exists obj, h, (snd (NextObjectHeader sc (scn w))), data, crc, s2, (index w3).
  repeat split; try assumption.
  - rewrite Hout. by destruct (NextObjectHeader sc (scn w)).
  - by rewrite <- Hscn1, <- Hscn2.
Qed.


Lemma indexAfterRecall_no_fuel (w : W) idx :
  indexAfterRecall (ReadObject sc api 0) w idx -> idx = index w.
Proof.
  intros [-> | (wa & outb & wb & Ha & Hr & ->)]; [reflexivity|].
  simpl in Hr. injection Hr as _ <-. exact Ha.
Qed.


(** *** Fuel: more of it changes no result *)

Lemma refines_refl {A} (m : Mon A) : refines m m.
Proof. intros w out w' H _. exact H. Qed.

Lemma refines_bind {A B} (m m' : Mon A) (k k' : A -> Mon B) :
  refines m m' -> (forall a, refines (k a) (k' a)) ->
  refines (bind m k) (bind m' k').
Proof.
  intros Hm Hk w out w' H Hout. unfold bind in *.
  destruct (m w) as [[a|p|] w1] eqn:E.
  - rewrite (Hm _ _ _ E) by discriminate. by apply Hk.
  - rewrite (Hm _ _ _ E) by discriminate. exact H.
  - injection H as <- <-. by destruct Hout.
Qed.

Lemma refines_defer {A B} (body body' : Mon A) (deferred : Mon B) :
  refines body body' -> refines (defer body deferred) (defer body' deferred).
Proof.
  intros Hb w out w' H Hout. unfold defer in *.
  destruct (body w) as [[a|p|] w1] eqn:E.
  - rewrite (Hb _ _ _ E) by discriminate. exact H.
  - rewrite (Hb _ _ _ E) by discriminate. exact H.
  - injection H as <- <-. by destruct Hout.
Qed.

Ltac refines_step :=
  first
    [ assumption
    | apply refines_refl
    | apply refines_bind; [| intros ]
    | apply refines_defer
    | progress cbv zeta
    | match goal with
      | |- refines (match ?x with _ => _ end) _ => destruct x
      end ].

Ltac refines_tac := repeat refines_step.

Lemma refines_ReadObject_body (rec rec' : Mon (option Obj * option Err)) :
  refines rec rec' ->
  refines (ReadObject_body sc api rec) (ReadObject_body sc api rec').
Proof.
  intros Hrec.
  unfold ReadObject_body, fillObjectContent, fillOFSDeltaObjectContent,
    fillREFDeltaObjectContent, recallByOffset, recallByHash, ReadObjectAt.
  refines_tac.
Qed.

Lemma ReadObject_fuel_S fuel :
  refines (St := St) (ReadObject sc api fuel) (ReadObject sc api (S fuel)).
Proof.
  induction fuel as [|fuel IH].
  - intros w out w' [= <- <-] Hout. by destruct Hout.
  - apply (refines_ReadObject_body _ _ IH).
Qed.

Lemma ReadObject_fuel_mono fuel fuel' :
  (fuel <= fuel')%nat ->
  refines (St := St) (ReadObject sc api fuel) (ReadObject sc api fuel').
Proof.
  induction 1 as [|fuel' _ IH]; [apply refines_refl|].
  intros w out w' H Hout. apply ReadObject_fuel_S; [|exact Hout]. by apply IH.
Qed.

Lemma Decode_fuel_mono fuel fuel' :
  (fuel <= fuel')%nat ->
  refines (St := St) (Decode sc api fuel) (Decode sc api fuel').
Proof.
  intros Hle. pose proof (ReadObject_fuel_mono _ _ Hle) as Hread.
  assert (H1 : forall n, refines (St := St) (readObjects sc api fuel n) (readObjects sc api fuel' n))
    by (induction n; simpl; refines_tac).
  assert (H2 : forall n, refines (St := St) (readObjectsWithObjectStorer sc api fuel n)
                           (readObjectsWithObjectStorer sc api fuel' n))
    by (induction n; simpl; refines_tac).
  assert (H3 : forall t n, refines (St := St) (readObjectsTxLoop sc api fuel t n)
                             (readObjectsTxLoop sc api fuel' t n))
    by (intros t; induction n; simpl; refines_tac).
  unfold Decode, doDecode, readObjectsWithObjectStorerTx.
  refines_tac; first [apply H1 | apply H2 | apply H3].
Qed.

(** *** A pass over the pack *)

Lemma with_sto_same (w : W) : with_sto (sto w) w = w.
Proof. by destruct w. Qed.

Lemma ReadObject_returns_object fuel (w : W) obj w' :
  ReadObject sc api fuel w = (Returns (obj, None), w') -> exists ob, obj = Some ob.
Proof.
  destruct fuel as [|fuel]; [discriminate|].
  simpl. intros H. apply ReadObject_body_index in H.
  destruct H as (ob & _ & _ & _ & _ & _ & _ & -> & _). by exists ob.
Qed.

Lemma readObjects_decodes fuel count (w w' : W) :
  readObjects sc api fuel count w = (Returns None, w') ->
  exists objs, length objs = count /\ decodes sc api fuel objs w w'.
Proof.
  revert w. induction count as [|count IH]; simpl; intros w H.
  - injection H as <-. exists []. split; [reflexivity | constructor].
  - apply bind_inv in H as [([obj err] & w1 & Hm & Hk) | [(p & _ & ?) | [_ ?]]];
      try discriminate.
    destruct err as [e|]; [discriminate|].
    destruct (ReadObject_returns_object _ _ _ _ Hm) as [ob ->].
    apply IH in Hk as (objs & Hlen & Hd).
    exists (ob :: objs). split; [simpl; congruence|].
    apply decodes_cons with (w1 := w1) (t := sto w1); [exact Hm|].
    by rewrite with_sto_same.
Qed.

Lemma readObjectsWithObjectStorer_decodes fuel count (w w' : W) :
  readObjectsWithObjectStorer sc api fuel count w = (Returns None, w') ->
  exists objs, length objs = count /\ decodes sc api fuel objs w w'.
Proof.
  revert w. induction count as [|count IH]; simpl; intros w H.
  - injection H as <-. exists []. split; [reflexivity | constructor].
  - apply bind_inv in H as [([obj err] & w1 & Hm & Hk) | [(p & _ & ?) | [_ ?]]];
      try discriminate.
    destruct err as [e|]; [discriminate|].
    destruct (ReadObject_returns_object _ _ _ _ Hm) as [ob ->].
    apply bind_inv in Hk as [([h err] & w2 & Hs & Hk) | [(p & _ & ?) | [_ ?]]];
      try discriminate.
    destruct err as [e|]; [discriminate|].
    apply IH in Hk as (objs & Hlen & Hd).
    exists (ob :: objs). split; [simpl; congruence|].
    unfold d_o, store in Hs. destruct (o (dec w1)) as [st|]; [|discriminate].
    destruct (SetObject st (Some ob) (sto w1)) as [r t] eqn:E.
    injection Hs as _ <-.
    by apply decodes_cons with (w1 := w1) (t := t).
Qed.

Lemma readObjectsTxLoop_decodes fuel t count (w w' : W) :
  readObjectsTxLoop sc api fuel t count w = (Returns None, w') ->
  exists objs w1,
    length objs = count /\ decodes sc api fuel objs w w1 /\
    Commit t (sto w1) = (None, sto w') /\ w' = with_sto (sto w') w1.
Proof.
  revert w. induction count as [|count IH]; simpl; intros w H.
  - unfold store in H. destruct (Commit t (sto w)) as [r t1] eqn:E.
    injection H as -> <-. exists [], w. repeat split; [constructor | exact E].
  - apply bind_inv in H as [([obj err] & w1 & Hm & Hk) | [(p & _ & ?) | [_ ?]]];
      try discriminate.
    destruct err as [e|]; [discriminate|].
    destruct (ReadObject_returns_object _ _ _ _ Hm) as [ob ->].
    apply bind_inv in Hk as [([h err] & w2 & Hs & Hk) | [(p & _ & ?) | [_ ?]]];
      try discriminate.
    unfold store in Hs. destruct (txSetObject t (Some ob) (sto w1)) as [r t1] eqn:E.
    injection Hs as -> <-.
    destruct err as [e|].
    + apply bind_inv in Hk as [(rerr & w3 & _ & Hk) | [(p & _ & ?) | [_ ?]]];
        try discriminate.
      destruct rerr; discriminate.
    + apply IH in Hk as (objs & w3 & Hlen & Hd & Hc & Hw).
      exists (ob :: objs), w3. repeat split; try assumption; [simpl; congruence|].
      by apply decodes_cons with (w1 := w1) (t := t1).
Qed.

Lemma doDecode_decodes fuel (w : W) v count s1 w' :
  Header sc (scn w) = ((v, count, None), s1) ->
  doDecode sc api fuel w = (Returns None, w') ->
  exists objs t0 w1,
    length objs = N.to_nat count /\
    decodes sc api fuel objs (with_sto t0 (with_scn s1 w)) w1 /\
    w' = with_sto (sto w') w1.
Proof.
  intros Hh. unfold doDecode, bind at 1, scan at 1. rewrite Hh.
  unfold bind at 1, getDec. cbn [dec with_scn]. cbv zeta.
  destruct (o (dec w)) as [st|] eqn:Ho; cbn [isNil].
  - destruct (asTransactioner st) as [begin|] eqn:Ht; cbn [isNil negb].
    + unfold readObjectsWithObjectStorerTx, bind at 1, asTransactioner_.
      cbn [dec with_scn]. rewrite Ho, Ht.
      unfold bind at 1, store. cbn [sto with_scn].
      destruct (begin (sto w)) as [t t0]. intros H.
      apply readObjectsTxLoop_decodes in H as (objs & w1 & Hlen & Hd & _ & Hw).
      by exists objs, t0, w1.
    + intros H. apply readObjectsWithObjectStorer_decodes in H as (objs & Hlen & Hd).
      exists objs, (sto (with_scn s1 w)), w'. by rewrite !with_sto_same.
  - intros H. apply readObjects_decodes in H as (objs & Hlen & Hd).
    exists objs, (sto (with_scn s1 w)), w'. by rewrite !with_sto_same.
Qed.

Lemma Decode_inv fuel (w : W) h w' :
  Decode sc api fuel w = (Returns (h, None), w') ->
  exists w1, doDecode sc api fuel w = (Returns None, w1) /\
             Checksum sc (scn w1) = ((h, None), scn w') /\
             w' = with_scn (scn w') w1.
Proof.
  unfold Decode. intros H.
  apply bind_inv in H as [(err & w1 & Hm & Hk) | [(p & _ & ?) | [_ ?]]];
    try discriminate.
  destruct err as [e|]; [discriminate|].
  exists w1. split; [exact Hm|].
  unfold scan in Hk. destruct (Checksum sc (scn w1)) as [r s3].
  injection Hk as -> <-. by split.
Qed.

Lemma doDecode_empty fuel (w : W) v s1 :
  Header sc (scn w) = ((v, 0%N, None), s1) ->
  doDecode sc api fuel w =
    match commitOf (with_scn s1 w) with
    | Some (r, t) => (Returns r, with_sto t (with_scn s1 w))
    | None => (Returns None, with_scn s1 w)
    end.
Proof.
  intros Hh. unfold doDecode, bind at 1, scan at 1. rewrite Hh.
  unfold bind at 1, getDec, commitOf. cbn [dec sto with_scn]. cbv zeta.
  destruct (o (dec w)) as [st|] eqn:Ho; cbn [isNil]; [|reflexivity].
  destruct (asTransactioner st) as [begin|] eqn:Ht; cbn [isNil negb]; [|reflexivity].
  unfold readObjectsWithObjectStorerTx, bind at 1, asTransactioner_.
  cbn [dec with_scn]. rewrite Ho, Ht.
  unfold bind at 1, store at 1. cbn [sto with_scn].
  destruct (begin (sto w)) as [t t0].
  change (int_of_uint32 0) with O. cbn [readObjectsTxLoop].
  unfold store. cbn [sto with_sto].
  destruct (Commit t t0) as [r t1]. reflexivity.
Qed.

(** A [Decode] that succeeds is a pass of [count] objects followed by the
    scanner's [Checksum]. *)
Lemma Decode_decodes fuel (w : W) v count s1 h w' :
  Header sc (scn w) = ((v, count, None), s1) ->
  Decode sc api fuel w = (Returns (h, None), w') ->
  exists objs t0 w1,
    length objs = N.to_nat count /\
    decodes sc api fuel objs (with_sto t0 (with_scn s1 w)) w1 /\
    Checksum sc (scn w1) = ((h, None), scn w') /\
    w' = with_scn (scn w') (with_sto (sto w') w1).
Proof.
  intros Hh H. apply Decode_inv in H as (w2 & Hd & Hc & Hw).
  destruct (doDecode_decodes _ _ _ _ _ _ Hh Hd) as (objs & t0 & w1 & Hlen & Hp & Hw2).
  exists objs, t0, w1. repeat split; try assumption.
  - rewrite Hw2 in Hc. exact Hc.
  - rewrite Hw, Hw2. by destruct w', w1.
Qed.

(** C7: [Decode] reads the header of the pack and then exactly the [count]
    objects it announces: a [Decode] that succeeds has made [count] calls
    of [ReadObject], one after the other, each of which returned an
    object, and what it returns is what the scanner's [Checksum] returns
    after the last of them.  When [count] is 0 no object is read and the
    index is left as it was, empty for a decoder just built; [Decode]
    returns the trailing checksum (or, when the storage is a
    [Transactioner] and its [Commit] fails, that error). *)
Theorem Decode_reads_count_objects_and_returns_checksum fuel (w : W) v count s1 :
  Header sc (scn w) = ((v, count, None), s1) ->
  (forall h w',
     Decode sc api fuel w = (Returns (h, None), w') ->
     exists objs t0 w1,
       length objs = N.to_nat count /\
       decodes sc api fuel objs (with_sto t0 (with_scn s1 w)) w1 /\
       Checksum sc (scn w1) = ((h, None), scn w') /\
       w' = with_scn (scn w') (with_sto (sto w') w1)) /\
  (count = 0%N ->
     Decode sc api fuel w =
       match commitOf (with_scn s1 w) with
       | Some (Some e, t) => (Returns (ZeroHash, Some e), with_sto t (with_scn s1 w))
       | Some (None, t) => scan (Checksum sc) (with_sto t (with_scn s1 w))
       | None => scan (Checksum sc) (with_scn s1 w)
       end /\
     index (snd (Decode sc api fuel w)) = index w /\
     (forall o, NewDecoder sc o = (Some (dec w), None) ->
        index (snd (Decode sc api fuel w)) = (∅, ∅, ∅))).
Proof.
  intros Hh. split.
  - intros h w' H. by eapply Decode_decodes.
  - intros ->.
    assert (HD : Decode sc api fuel w =
       match commitOf (with_scn s1 w) with
       | Some (Some e, t) => (Returns (ZeroHash, Some e), with_sto t (with_scn s1 w))
       | Some (None, t) => scan (Checksum sc) (with_sto t (with_scn s1 w))
       | None => scan (Checksum sc) (with_scn s1 w)
       end).
    { unfold Decode, bind. rewrite (doDecode_empty _ _ _ _ Hh).
      destruct (commitOf (with_scn s1 w)) as [[[e|] t]|]; reflexivity. }
    assert (HI : index (snd (Decode sc api fuel w)) = index w).
    { rewrite HD. destruct (commitOf (with_scn s1 w)) as [[[e|] t]|]; try reflexivity;
        unfold scan; cbn [scn with_scn with_sto];
        destruct (Checksum sc s1); reflexivity. }
    repeat split; [exact HD | exact HI |].
    intros st Hnew. rewrite HI. unfold NewDecoder in Hnew.
    destruct (negb (IsSeekable sc) && isNil st); [discriminate|].
    injection Hnew as Hnew. unfold index. by rewrite <- Hnew.
Qed.

(** *** The CRCs *)

Lemma size_list_to_set_le (l : list N) : (size (list_to_set l : gset N) <= length l)%nat.
Proof.
  induction l as [|x l IH]; cbn [list_to_set length].
  - rewrite size_empty. lia.
  - rewrite size_union_alt, size_singleton.
    assert (size (list_to_set l ∖ {[x]} : gset N) <= size (list_to_set l : gset N))%nat
      by (apply subseteq_size; set_solver).
    lia.
Qed.

Lemma size_list_to_set_NoDup (l : list N) :
  size (list_to_set l : gset N) = length l <-> NoDup l.
Proof.
  split; [|apply size_list_to_set].
  induction l as [|x l IH]; cbn [list_to_set length]; intros H; [constructor|].
  pose proof (size_list_to_set_le l) as Hle.
  destruct (decide (x ∈ l)) as [Hin|Hnin].
  - exfalso.
    assert (Heq : {[x]} ∪ list_to_set l = (list_to_set l : gset N)) by set_solver.
    rewrite Heq in H. lia.
  - constructor; [exact Hnin|]. apply IH.
    rewrite size_union, size_singleton in H by set_solver. lia.
Qed.

Lemma indexAfterRecall_crcs rec (w : W) idx :
  (forall wa outb wb, rec wa = (outb, wb) -> dom (index wa).2 ⊆ dom (index wb).2) ->
  indexAfterRecall rec w idx -> dom (index w).2 ⊆ dom idx.2.
Proof.
  intros Hrec [-> | (wa & outb & wb & Ha & Hr & ->)]; [reflexivity|].
  rewrite <- Ha. by eapply Hrec.
Qed.

(** No call removes a CRC. *)
Lemma ReadObject_crcs_mono fuel (w : W) out w' :
  ReadObject sc api fuel w = (out, w') -> dom (index w).2 ⊆ dom (index w').2.
Proof.
  revert w out w'. induction fuel as [|fuel IH]; intros w out w' H.
  - injection H as _ <-. reflexivity.
  - simpl in H. apply ReadObject_body_index in H.
    destruct out as [[obj [e|]]|p|];
      try (eapply indexAfterRecall_crcs; [|exact H]; exact IH).
    destruct H as (ob & h & s1 & data & crc & s2 & idx & _ & _ & _ & Hi & ->).
    etrans; [eapply indexAfterRecall_crcs; [exact IH | exact Hi]|].
    unfold insertEntry. simpl. apply dom_insert_subseteq.
Qed.

Lemma decodes_crcs fuel objs (w w' : W) :
  decodes sc api fuel objs w w' ->
  dom (crcs (dec w)) ⊆ dom (crcs (dec w')) /\
  (forall ob, ob ∈ objs -> HashOf api ob ∈ dom (crcs (dec w'))).
Proof.
  induction 1 as [w | obj objs w w1 t w2 Hread Hd [IHm IHin]].
  - split; [reflexivity|]. intros ob Hin. by apply elem_of_nil in Hin.
  - cbn [dec with_sto] in IHm. split.
    + etrans; [|exact IHm]. apply (ReadObject_crcs_mono _ _ _ _ Hread).
    + intros ob [-> | Hin]%elem_of_cons; [|by apply IHin].
      apply IHm. destruct fuel as [|fuel]; [discriminate|].
      simpl in Hread. apply ReadObject_body_index in Hread.
      destruct Hread as (ob' & h & _ & _ & crc & _ & idx & [= <-] & _ & _ & _ & Hidx).
      apply elem_of_dom. exists crc.
      change (crcs (dec w1)) with (index w1).2. rewrite Hidx.
      apply insertEntry_lookup.
Qed.

(** With fuel for one level only no base is re-read, and each object
    decoded adds its one entry. *)
Lemma decodes_crcs_exact objs (w w' : W) :
  decodes sc api 1 objs w w' ->
  dom (crcs (dec w')) = list_to_set (HashOf api <$> objs) ∪ dom (crcs (dec w)).
Proof.
  induction 1 as [w | obj objs w w1 t w2 Hread Hd IH].
  - set_solver.
  - cbn [dec with_sto] in IH. rewrite IH.
    simpl in Hread. apply ReadObject_body_index in Hread.
    destruct Hread as (ob' & h & _ & _ & crc & _ & idx & [= <-] & _ & _ & Hi & Hidx).
    apply indexAfterRecall_no_fuel in Hi. subst idx.
    change (crcs (dec w1)) with (index w1).2. rewrite Hidx.
    unfold insertEntry. cbn [snd fst]. rewrite dom_insert_L.
    change (index w).2 with (crcs (dec w)). set_solver.
Qed.

(** C9, as the code has it: after a [Decode] that succeeds, [crcs] holds
    an entry for the hash of each of the [count] objects decoded.  The map
    is keyed by hash, so two objects with one hash share one entry: when
    the decoder started with no CRC and no base had to be re-read from the
    pack (fuel for one level of [ReadObject]), the keys of [crcs] are the
    hashes of the objects decoded, and their number is [count] if and
    only if these hashes are pairwise distinct. *)
Theorem Decode_crcs_cover_decoded_objects fuel (w : W) v count s1 h w' :
  Header sc (scn w) = ((v, count, None), s1) ->
  Decode sc api fuel w = (Returns (h, None), w') ->
  exists objs t0 w1,
    length objs = N.to_nat count /\
    decodes sc api fuel objs (with_sto t0 (with_scn s1 w)) w1 /\
    index w' = index w1 /\
    (forall ob, ob ∈ objs -> is_Some (crcs (dec w') !! HashOf api ob)) /\
    (fuel = 1%nat -> crcs (dec w) = ∅ ->
       dom (crcs (dec w')) = list_to_set (HashOf api <$> objs) /\
       (size (crcs (dec w')) = N.to_nat count <-> NoDup (HashOf api <$> objs))).
Proof.
  intros Hh HD.
  destruct (Decode_decodes fuel w v count s1 h w' Hh HD)
    as (objs & t0 & w1 & Hlen & Hp & _ & Hw).
  assert (Hdec : dec w' = dec w1) by (rewrite Hw; reflexivity).
  exists objs, t0, w1. split; [exact Hlen|]. split; [exact Hp|].
  split; [unfold index; by rewrite Hdec|]. split.
  - intros ob Hin. rewrite Hdec. apply elem_of_dom.
    by apply (decodes_crcs _ _ _ _ Hp).
  - intros -> Hempty.
    assert (Hdom : dom (crcs (dec w')) = list_to_set (HashOf api <$> objs)).
    { rewrite Hdec, (decodes_crcs_exact _ _ _ Hp).
      cbn [dec with_sto with_scn]. rewrite Hempty, dom_empty_L. set_solver. }
    split; [exact Hdom|].
    assert (Hsize : size (crcs (dec w'))
                    = size (list_to_set (HashOf api <$> objs) : gset N)).
    { rewrite <- Hdom. symmetry. apply size_dom. }
    rewrite Hsize, <- Hlen, <- (length_fmap (HashOf api) objs).
    apply size_list_to_set_NoDup.
Qed.

(** *** The two directions of the index *)


(** *** The base of an OfsDelta *)

(** C2, as the code has it: [ReadObject] hands the [OffsetReference] of
    the header to [fillOFSDeltaObjectContent], which recalls the base at
    that very offset and subtracts nothing.  On a seekable scanner the
    decoder seeks to [OffsetReference h]: a failure of that seek is the
    error returned, and otherwise the base to which the delta is applied
    is the object that [ReadObject] returns with the cursor there.  On a
    scanner that is not seekable, [OffsetReference h] is the key looked up
    in [offsetToHash]. *)
Theorem OfsDelta_base_is_recalled_at_OffsetReference (position : Sc -> Z) :
  (forall offset s prev s',
     Seek sc offset s = ((prev, None), s') ->
     prev = position s /\ position s' = offset) ->
  forall rec h obj (w : W) buf crc s2,
    Type_ h = OFSDeltaObject ->
    NextObject sc (scn w) = ((buf, crc, None), s2) ->
    (IsSeekable sc = true ->
       (forall prev e s3,
          Seek sc (OffsetReference h) s2 = ((prev, Some e), s3) ->
          fillObjectContent sc api rec h obj w
          = (Returns (obj, 0, Some e), with_scn s3 w)) /\
       (forall prev s3 base wb,
          Seek sc (OffsetReference h) s2 = ((prev, None), s3) ->
          rec (with_scn s3 w) = (Returns (Some base, None), wb) ->
          position (scn (with_scn s3 w)) = OffsetReference h /\
          fillObjectContent sc api rec h obj w
          = (Returns
               (fst (ApplyDelta api (SetType api (GetType api base) obj) base buf),
                crc,
                snd (ApplyDelta api (SetType api (GetType api base) obj) base buf)),
             with_scn (snd (Seek sc prev (scn wb))) wb))) /\
    (IsSeekable sc = false ->
       offsetToHash (dec w) !! OffsetReference h = None ->
       fillObjectContent sc api rec h obj w
       = (Returns (obj, 0, Some ErrObjectNotFound), with_scn s2 w)).
Proof.
  intros Hcontract rec h obj w buf crc s2 Hty Hnext.
  assert (Hfill : fillObjectContent sc api rec h obj w =
    bind (recallByOffset sc rec (OffsetReference h))
      (fun '(base, err) =>
         match err with
         | Some e => ret (obj, 0, Some e)
         | None => applyBase api obj base buf crc
         end) (with_scn s2 w)).
  { unfold fillObjectContent. rewrite Hty.
    unfold fillOFSDeltaObjectContent, bind at 1, scan at 1. by rewrite Hnext. }
  rewrite Hfill. unfold recallByOffset, bind. split.
  - intros Hs. rewrite Hs. split.
    + intros prev e s3 Hj.
      pose proof (ReadObjectAt_seek_fails rec _ (with_scn s2 w) _ _ _ Hs Hj) as Hat.
      rewrite Hat. reflexivity.
    + intros prev s3 base wb Hj Hr. split; [apply (Hcontract _ _ _ _ Hj)|].
      pose proof (ReadObjectAt_jumps rec _ (with_scn s2 w) _ _ _ _ Hs Hj Hr) as Hat.
      rewrite Hat. unfold applyBase.
      by destruct (ApplyDelta api (SetType api (GetType api base) obj) base buf).
  - intros Hs Hnone. rewrite Hs.
    unfold getDec. cbn [dec with_scn]. by rewrite Hnone.
Qed.

(** *** One object, case by case *)

(** [ReadObject] up to the [switch]: the header is read and the object
    allocated, sized and typed. *)
Lemma ReadObject_body_header rec (w : W) h s1 obj0 w1 :
  NextObjectHeader sc (scn w) = (inl h, s1) ->
  newObject api (with_scn s1 w) = (Returns obj0, w1) ->
  ReadObject_body sc api rec w =
    bind (fillObjectContent sc api rec h
            (SetType api (Type_ h) (SetSize api (Length h) obj0)))
      (fun '(obj, crc, err) =>
         match err with
         | Some e => ret (Some obj, Some e)
         | None =>
             bind (setOffset (HashOf api obj) (Offset h)) (fun _ =>
             bind (setCRC (HashOf api obj) crc) (fun _ => ret (Some obj, None)))
         end) w1.
Proof.
  intros Hh Hn. unfold ReadObject_body, bind at 1, scan at 1. rewrite Hh.
  unfold bind at 1. rewrite Hn. reflexivity.
Qed.

Lemma newObject_scn (w : W) obj0 w1 :
  newObject api w = (Returns obj0, w1) -> scn w1 = scn w /\ index w1 = index w.
Proof. intros H. by apply newObject_inv in H as (_ & ? & ?). Qed.

Lemma fillObjectContent_regular rec h obj (w : W) :
  isRegular (Type_ h) = true ->
  fillObjectContent sc api rec h obj w = fillRegularObjectContent sc api obj w.
Proof. unfold fillObjectContent. by destruct (Type_ h). Qed.


(** X2: the ways a plain object fails.  A header that the scanner cannot read
    gives a nil object and the scanner's error, and nothing is allocated.
    An object that gives no writer is returned with that error, its body
    unread.  A body that the scanner cannot inflate gives the object, with
    what was written to it, and the scanner's error.  In the three cases
    the index is as it was. *)
Theorem ReadObject_plain_object_errors fuel (w : W) :
  (forall e s1,
     NextObjectHeader sc (scn w) = (inr e, s1) ->
     ReadObject sc api (S fuel) w = (Returns (None, Some e), with_scn s1 w)) /\
  (forall h s1 obj0 w1,
     NextObjectHeader sc (scn w) = (inl h, s1) ->
     isRegular (Type_ h) = true ->
     newObject api (with_scn s1 w) = (Returns obj0, w1) ->
     (forall e,
        Writer api (SetType api (Type_ h) (SetSize api (Length h) obj0)) = Some e ->
        ReadObject sc api (S fuel) w
        = (Returns (Some (SetType api (Type_ h) (SetSize api (Length h) obj0)),
                    Some e), w1)) /\
     (forall data crc e s2,
        Writer api (SetType api (Type_ h) (SetSize api (Length h) obj0)) = None ->
        NextObject sc s1 = ((data, crc, Some e), s2) ->
        ReadObject sc api (S fuel) w
        = (Returns (Some (Write api data
                            (SetType api (Type_ h) (SetSize api (Length h) obj0))),
                    Some e), with_scn s2 w1) /\
        index (with_scn s2 w1) = index w)).
Proof.
  split.
  - intros e s1 Hh. simpl. unfold ReadObject_body, bind, scan. by rewrite Hh.
  - intros h s1 obj0 w1 Hh Hreg Hn.
    destruct (newObject_scn _ _ _ Hn) as [Hscn Hidx]. split.
    + intros e Hw. simpl. rewrite (ReadObject_body_header _ _ _ _ _ _ Hh Hn).
      unfold bind. rewrite (fillObjectContent_regular _ _ _ _ Hreg).
      unfold fillRegularObjectContent. by rewrite Hw.
    + intros data crc e s2 Hw Hb. split; [|exact Hidx].
      simpl. rewrite (ReadObject_body_header _ _ _ _ _ _ Hh Hn).
      unfold bind at 1. rewrite (fillObjectContent_regular _ _ _ _ Hreg).
      unfold fillRegularObjectContent. rewrite Hw.
      unfold bind, scan. rewrite Hscn. cbn [scn with_scn]. by rewrite Hb.
Qed.

(** X3: a header whose type is none of the six: [ReadObject] returns the
    object it allocated together with [ErrInvalidObject], whose details
    name the type; the body is not read and the index is as it was. *)
Theorem ReadObject_invalid_type fuel (w : W) h s1 obj0 w1 :
  NextObjectHeader sc (scn w) = (inl h, s1) ->
  isRegular (Type_ h) = false ->
  isDelta (Type_ h) = false ->
  newObject api (with_scn s1 w) = (Returns obj0, w1) ->
  ReadObject sc api (S fuel) w
  = (Returns (Some (SetType api (Type_ h) (SetSize api (Length h) obj0)),
              Some (PackError "invalid git object" (invalidTypeDetails api (Type_ h)))),
     w1) /\
  scn w1 = s1 /\ index w1 = index w.
Proof.
  intros Hh Hreg Hdelta Hn.
  destruct (newObject_scn _ _ _ Hn) as [Hscn Hidx].
  split; [|by split].
  simpl. rewrite (ReadObject_body_header _ _ _ _ _ _ Hh Hn).
  unfold bind, fillObjectContent. by destruct (Type_ h).
Qed.

(** *** Deltas *)

(** X4: on a scanner that is not seekable, with the [tx] that [NewDecoder]
    leaves, no delta is ever decoded: [ReadObject] on an OfsDelta or a
    RefDelta returns an error (that of the body, or
    [plumbing.ErrObjectNotFound] for an OfsDelta whose base offset is not
    in the index) or panics on the nil [d.tx]; the index is as it was. *)
Theorem ReadObject_delta_needs_seekable fuel (w : W) h s1 out w' :
  IsSeekable sc = false ->
  tx (dec w) = None ->
  NextObjectHeader sc (scn w) = (inl h, s1) ->
  isDelta (Type_ h) = true ->
  ReadObject sc api (S fuel) w = (out, w') ->
  ((exists obj e, out = Returns (Some obj, Some e)) \/ out = Panics NilDereference) /\
  index w' = index w.
Proof.
  intros Hs Htx Hh Hdelta. simpl.
  destruct (newObject api (with_scn s1 w)) as [outn w1] eqn:Hn.
  pose proof (keeps_newObject handles (with_scn s1 w)) as Hk. rewrite Hn in Hk.
  apply handles_tx in Hk. cbn [dec with_scn snd] in Hk.
  destruct (newObject_inv _ _ _ Hn) as ([obj0 ->] & Hscn & Hidx).
  rewrite (ReadObject_body_header _ _ _ _ _ _ Hh Hn).
  assert (Htx1 : tx (dec w1) = None) by congruence.
  unfold bind at 1, fillObjectContent.
  destruct (Type_ h); try discriminate.
  - unfold fillOFSDeltaObjectContent, bind at 1, scan.
    destruct (NextObject sc (scn w1)) as [[[buf crc] [e|]] s2].
    + intros [= <- <-]. split; [left; eauto | exact Hidx].
    + unfold recallByOffset. rewrite Hs. unfold bind, getDec, d_tx.
      cbn [dec with_scn].
      destruct (offsetToHash (dec w1) !! OffsetReference h).
      * cbn [dec with_scn]. rewrite Htx1.
        intros [= <- <-]. split; [by right | exact Hidx].
      * intros [= <- <-]. split; [left; eauto | exact Hidx].
  - unfold fillREFDeltaObjectContent, bind at 1, scan.
    destruct (NextObject sc (scn w1)) as [[[buf crc] [e|]] s2].
    + intros [= <- <-]. split; [left; eauto | exact Hidx].
    + unfold recallByHash. rewrite Hs. unfold bind, d_tx. cbn [dec with_scn].
      rewrite Htx1. intros [= <- <-]. split; [by right | exact Hidx].
Qed.

(** X5: a RefDelta whose reference has an offset in [hashToOffset], on a
    seekable scanner: the decoder seeks to that offset.  A failure of the
    seek is the error returned; otherwise the delta is applied to the
    object that [ReadObject] returns there, the object taking the type of
    that base first. *)
Theorem RefDelta_base_is_read_at_indexed_offset rec h obj (w : W) buf crc s2 offset :
  Type_ h = REFDeltaObject ->
  NextObject sc (scn w) = ((buf, crc, None), s2) ->
  IsSeekable sc = true ->
  hashToOffset (dec w) !! Reference h = Some offset ->
  (forall prev e s3,
     Seek sc offset s2 = ((prev, Some e), s3) ->
     fillObjectContent sc api rec h obj w
     = (Returns (obj, 0, Some e), with_scn s3 w)) /\
  (forall prev s3 base wb,
     Seek sc offset s2 = ((prev, None), s3) ->
     rec (with_scn s3 w) = (Returns (Some base, None), wb) ->
     fillObjectContent sc api rec h obj w
     = (Returns
          (fst (ApplyDelta api (SetType api (GetType api base) obj) base buf),
           crc,
           snd (ApplyDelta api (SetType api (GetType api base) obj) base buf)),
        with_scn (snd (Seek sc prev (scn wb))) wb)).
Proof.
  intros Hty Hnext Hs Hoff.
  assert (Hfill : fillObjectContent sc api rec h obj w =
    bind (ReadObjectAt sc rec offset)
      (fun '(base, err) =>
         match err with
         | Some e => ret (obj, 0, Some e)
         | None => applyBase api obj base buf crc
         end) (with_scn s2 w)).
  { unfold fillObjectContent. rewrite Hty.
    unfold fillREFDeltaObjectContent, bind at 1, scan at 1. rewrite Hnext.
    unfold recallByHash. rewrite Hs. unfold bind, getDec. cbn [dec with_scn].
    by rewrite Hoff. }
  rewrite Hfill. unfold bind. split.
  - intros prev e s3 Hj.
    pose proof (ReadObjectAt_seek_fails rec _ (with_scn s2 w) _ _ _ Hs Hj) as Hat.
    rewrite Hat. reflexivity.
  - intros prev s3 base wb Hj Hr.
    pose proof (ReadObjectAt_jumps rec _ (with_scn s2 w) _ _ _ _ Hs Hj Hr) as Hat.
    rewrite Hat. unfold applyBase.
    by destruct (ApplyDelta api (SetType api (GetType api base) obj) base buf).
Qed.

(** X6: [SetOffsets] and the reads by hash.  [Offsets] returns the map that
    [SetOffsets] was given; on a seekable scanner [recallByHash] then
    reads a hash of that map at the offset the map gives, and for a hash
    that the map lacks it turns to [d.tx] even when [offsetToHash] still
    knows the hash: with the nil [tx] of [NewDecoder], it panics. *)
Theorem SetOffsets_directs_recallByHash rec offsets (w : W) :
  fst (Offsets (snd (SetOffsets offsets w))) = Returns offsets /\
  (IsSeekable sc = true ->
   forall h offset,
     offsets !! h = Some offset ->
     recallByHash sc rec h (snd (SetOffsets offsets w))
     = ReadObjectAt sc rec offset (snd (SetOffsets offsets w))) /\
  (tx (dec w) = None ->
   forall h,
     offsets !! h = None ->
     recallByHash sc rec h (snd (SetOffsets offsets w))
     = (Panics NilDereference, snd (SetOffsets offsets w))).
Proof.
  split; [reflexivity|]. split.
  - intros Hs h offset Hoff. unfold recallByHash. rewrite Hs.
    unfold bind at 1, getDec. cbn. by rewrite Hoff.
  - intros Htx h Hoff. unfold recallByHash.
    destruct (IsSeekable sc).
    + unfold bind at 1, getDec. cbn. rewrite Hoff.
      unfold bind, d_tx. cbn. by rewrite Htx.
    + unfold bind, d_tx. cbn. by rewrite Htx.
Qed.

(** *** The three loops of a pass *)

Lemma ReadObject_o fuel (w : W) out w1 :
  ReadObject sc api fuel w = (out, w1) ->
  o (dec w1) = o (dec w) /\ tx (dec w1) = tx (dec w).
Proof.
  intros H. pose proof (keeps_tx_ReadObject fuel w) as Hk. rewrite H in Hk.
  unfold handles in Hk. simpl in Hk. by injection Hk as -> ->.
Qed.

Lemma stores_o fuel put objs (w w' : W) :
  stores sc api fuel put objs w w' ->
  o (dec w') = o (dec w) /\ tx (dec w') = tx (dec w).
Proof.
  induction 1 as [w | obj objs w w1 h t w2 Hread Hput Hs [IHo IHt]]; [by split|].
  destruct (ReadObject_o _ _ _ _ Hread) as [Ho Ht].
  cbn [dec with_sto] in IHo, IHt. split; congruence.
Qed.

(** One turn of the loop over a storage. *)
Lemma readObjectsWithObjectStorer_turn fuel n (w : W) st obj w1 h err t :
  o (dec w) = Some st ->
  ReadObject sc api fuel w = (Returns (Some obj, None), w1) ->
  SetObject st (Some obj) (sto w1) = ((h, err), t) ->
  readObjectsWithObjectStorer sc api fuel (S n) w =
    match err with
    | Some e => (Returns (Some e), with_sto t w1)
    | None => readObjectsWithObjectStorer sc api fuel n (with_sto t w1)
    end.
Proof.
  intros Ho Hread Hset. simpl. unfold bind at 1. rewrite Hread.
  unfold bind at 1, d_o, store.
  rewrite (proj1 (ReadObject_o _ _ _ _ Hread)), Ho, Hset. by destruct err.
Qed.

(** X7: with a storage that has no transactions, a pass that succeeds has
    handed each object it read to [SetObject], in the order of the pack,
    straight after reading it: the loop returns nil exactly when [count]
    objects are read and each is accepted. *)
Theorem readObjectsWithObjectStorer_sets_each_object fuel (w : W) st :
  o (dec w) = Some st ->
  (forall objs w',
     stores sc api fuel (SetObject st) objs w w' ->
     readObjectsWithObjectStorer sc api fuel (length objs) w = (Returns None, w')) /\
  (forall count w',
     readObjectsWithObjectStorer sc api fuel count w = (Returns None, w') ->
     exists objs, length objs = count /\ stores sc api fuel (SetObject st) objs w w').
Proof.
  intros Ho. split.
  - intros objs w' Hs. revert Ho.
    induction Hs as [w | obj objs w w1 h t w2 Hread Hput Hs IH]; intros Ho.
    + reflexivity.
    + cbn [length].
      rewrite (readObjectsWithObjectStorer_turn _ _ _ _ _ _ _ _ _ Ho Hread Hput).
      apply IH. cbn [dec with_sto].
      by rewrite (proj1 (ReadObject_o _ _ _ _ Hread)).
  - intros count. revert w Ho.
    induction count as [|count IH]; intros w Ho w' H.
    + simpl in H. injection H as <-. exists []. split; [reflexivity | constructor].
    + simpl in H.
      apply bind_inv in H as [([obj err] & w1 & Hm & Hk) | [(p & _ & ?) | [_ ?]]];
        try discriminate.
      destruct err as [e|]; [discriminate|].
      destruct (ReadObject_returns_object _ _ _ _ Hm) as [ob ->].
      destruct (ReadObject_o _ _ _ _ Hm) as [Ho1 _].
      apply bind_inv in Hk as [([h err] & w2 & Hs & Hk) | [(p & _ & ?) | [_ ?]]];
        try discriminate.
      destruct err as [e|]; [discriminate|].
      unfold d_o, store in Hs. rewrite Ho1, Ho in Hs.
      destruct (SetObject st (Some ob) (sto w1)) as [r t1] eqn:E.
      injection Hs as -> <-.
      apply IH in Hk as (objs & Hlen & Hst); [|cbn [dec with_sto]; congruence].
      exists (ob :: objs). split; [simpl; congruence|].
      eapply stores_cons; [exact Hm | exact E | exact Hst].
Qed.

(** X8: with a storage that has no transactions, a pass stops at the first
    failure and returns its error.  When [SetObject] refuses an object,
    the objects set before it stay set and the refused object stays in the
    index; when [ReadObject] fails, nothing more is set. *)
Theorem readObjectsWithObjectStorer_stops_at_first_error fuel (w : W) st objs w1 count :
  o (dec w) = Some st ->
  stores sc api fuel (SetObject st) objs w w1 ->
  (length objs < count)%nat ->
  (forall obj w2 h e t,
     ReadObject sc api fuel w1 = (Returns (Some obj, None), w2) ->
     SetObject st (Some obj) (sto w2) = ((h, Some e), t) ->
     readObjectsWithObjectStorer sc api fuel count w
     = (Returns (Some e), with_sto t w2)) /\
  (forall r e w2,
     ReadObject sc api fuel w1 = (Returns (r, Some e), w2) ->
     readObjectsWithObjectStorer sc api fuel count w = (Returns (Some e), w2)).
Proof.
  intros Ho Hs. revert count Ho.
  induction Hs as [w | obj objs w w1 h t w2 Hread Hput Hs IH]; intros count Ho Hlt.
  - destruct count as [|count]; [simpl in Hlt; lia|]. split.
    + intros obj w2 h e t Hread Hset.
      by rewrite (readObjectsWithObjectStorer_turn _ _ _ _ _ _ _ _ _ Ho Hread Hset).
    + intros r e w2 Hread. simpl. unfold bind. by rewrite Hread.
  - destruct count as [|count]; [simpl in Hlt; lia|].
    rewrite (readObjectsWithObjectStorer_turn _ _ _ _ _ _ _ _ _ Ho Hread Hput).
    apply IH; [|simpl in Hlt; lia].
    cbn [dec with_sto]. by rewrite (proj1 (ReadObject_o _ _ _ _ Hread)).
Qed.

(** One turn of the loop over a transaction. *)
Lemma readObjectsTxLoop_turn fuel tr n (w : W) obj w1 h t :
  ReadObject sc api fuel w = (Returns (Some obj, None), w1) ->
  txSetObject tr (Some obj) (sto w1) = ((h, None), t) ->
  readObjectsTxLoop sc api fuel tr (S n) w
  = readObjectsTxLoop sc api fuel tr n (with_sto t w1).
Proof.
  intros Hread Hset. simpl. unfold bind at 1. rewrite Hread.
  unfold bind at 1, store. by rewrite Hset.
Qed.

Lemma readObjectsWithObjectStorerTx_begin fuel n (w : W) st begin tr t0 :
  o (dec w) = Some st ->
  asTransactioner st = Some begin ->
  begin (sto w) = (tr, t0) ->
  readObjectsWithObjectStorerTx sc api fuel n w
  = readObjectsTxLoop sc api fuel tr n (with_sto t0 w).
Proof.
  intros Ho Ht Hb. unfold readObjectsWithObjectStorerTx, bind, asTransactioner_, store.
  by rewrite Ho, Ht, Hb.
Qed.

(** X9: with a storage that has transactions, a pass begins one transaction,
    hands each object it reads to the [SetObject] of that transaction,
    and, when the [count] objects are read and accepted, ends with
    [Commit], whose result, nil or an error, is what the pass returns. *)
Theorem readObjectsWithObjectStorerTx_commits fuel (w : W) st begin tr t0 objs w1 r t1 :
  o (dec w) = Some st ->
  asTransactioner st = Some begin ->
  begin (sto w) = (tr, t0) ->
  stores sc api fuel (txSetObject tr) objs (with_sto t0 w) w1 ->
  Commit tr (sto w1) = (r, t1) ->
  readObjectsWithObjectStorerTx sc api fuel (length objs) w
  = (Returns r, with_sto t1 w1).
Proof.
  intros Ho Ht Hb Hs Hc.
  rewrite (readObjectsWithObjectStorerTx_begin _ _ _ _ _ _ _ Ho Ht Hb).
  clear Ho Hb. induction Hs as [w' | obj objs w' w2 h t w3 Hread Hput Hs IH].
  - simpl. unfold store. by rewrite Hc.
  - cbn [length]. rewrite (readObjectsTxLoop_turn _ _ _ _ _ _ _ _ Hread Hput).
    by apply IH.
Qed.

(** X10: with a storage that has transactions, a [ReadObject] that fails in
    the middle of a pass ends the pass with its error, and the transaction
    is left as it is, neither committed nor rolled back: the storage is in
    the state that the last [SetObject] of the transaction left. *)
Theorem readObjectsWithObjectStorerTx_read_error_leaves_transaction
    fuel (w : W) st begin tr t0 objs w1 count obj e w2 :
  o (dec w) = Some st ->
  asTransactioner st = Some begin ->
  begin (sto w) = (tr, t0) ->
  stores sc api fuel (txSetObject tr) objs (with_sto t0 w) w1 ->
  (length objs < count)%nat ->
  ReadObject sc api fuel w1 = (Returns (obj, Some e), w2) ->
  readObjectsWithObjectStorerTx sc api fuel count w = (Returns (Some e), w2).
Proof.
  intros Ho Ht Hb Hs Hlt Hread.
  rewrite (readObjectsWithObjectStorerTx_begin _ _ _ _ _ _ _ Ho Ht Hb).
  clear Ho Hb. revert count Hlt.
  induction Hs as [w' | ob objs w' w3 h t w4 Hr Hput Hs IH]; intros count Hlt.
  - destruct count as [|count]; [simpl in Hlt; lia|].
    simpl. unfold bind. by rewrite Hread.
  - destruct count as [|count]; [simpl in Hlt; lia|].
    rewrite (readObjectsTxLoop_turn _ _ _ _ _ _ _ _ Hr Hput).
    apply IH; [exact Hread | simpl in Hlt; lia].
Qed.

(** *** The index only grows *)

Lemma keysIncluded_refl a : keysIncluded a a.
Proof. by repeat split. Qed.

Lemma keysIncluded_trans a b c : keysIncluded a b -> keysIncluded b c -> keysIncluded a c.
Proof. intros (? & ? & ?) (? & ? & ?). repeat split; by etrans. Qed.

Lemma keysIncluded_insertEntry offset h crc idx :
  keysIncluded (indexKeys idx) (indexKeys (insertEntry offset h crc idx)).
Proof.
  unfold keysIncluded, indexKeys, insertEntry. cbn [fst snd].
  repeat split; apply dom_insert_subseteq.
Qed.

Lemma grows_of_keeps {A} (m : Mon A) :
  keeps (fun w : W => indexOf (dec w)) m -> grows m.
Proof.
  intros Hk w. specialize (Hk w). unfold index. rewrite Hk. apply keysIncluded_refl.
Qed.

Lemma grows_bind {A B} (m : Mon A) (k : A -> Mon B) :
  grows m -> (forall a, grows (k a)) -> grows (bind m k).
Proof.
  intros Hm Hk w. unfold bind. specialize (Hm w).
  destruct (m w) as [[a|p|] w1]; simpl in *; try assumption.
  eapply keysIncluded_trans; [exact Hm | apply Hk].
Qed.

Lemma grows_ReadObject fuel : grows (St := St) (ReadObject sc api fuel).
Proof.
  induction fuel as [|fuel IH]; intros w; [apply keysIncluded_refl|].
  destruct (ReadObject sc api (S fuel) w) as [out w'] eqn:H. cbn [snd].
  simpl in H. apply ReadObject_body_index in H.
  assert (Hrecall : forall idx, indexAfterRecall (ReadObject sc api fuel) w idx ->
            keysIncluded (indexKeys (index w)) (indexKeys idx)).
  { intros idx [-> | (wa & outb & wb & Ha & Hr & ->)]; [apply keysIncluded_refl|].
    rewrite <- Ha. specialize (IH wa). by rewrite Hr in IH. }
  destruct out as [[obj [e|]]|p|]; try by apply Hrecall.
  destruct H as (ob & h & s1 & data & crc & s2 & idx & _ & _ & _ & Hi & ->).
  eapply keysIncluded_trans; [by apply Hrecall | apply keysIncluded_insertEntry].
Qed.

Ltac grows_step :=
  first
    [ apply grows_ReadObject | assumption
    | apply grows_bind; [| intros ]
    | apply grows_of_keeps; keeps_tac; fail
    | progress cbv zeta
    | match goal with
      | |- grows (match ?x with _ => _ end) => destruct x
      end ].

Ltac grows_tac := repeat grows_step.

Lemma grows_readObjects fuel count : grows (St := St) (readObjects sc api fuel count).
Proof. induction count as [|count IH]; simpl; grows_tac. Qed.

Lemma grows_readObjectsWithObjectStorer fuel count :
  grows (St := St) (readObjectsWithObjectStorer sc api fuel count).
Proof. induction count as [|count IH]; simpl; grows_tac. Qed.

Lemma grows_readObjectsTxLoop fuel tr count :
  grows (St := St) (readObjectsTxLoop sc api fuel tr count).
Proof. induction count as [|count IH]; simpl; grows_tac. Qed.

Lemma grows_ReadObjectAt fuel offset :
  grows (St := St) (ReadObjectAt sc (ReadObject sc api fuel) offset).
Proof.
  intros w. destruct (ReadObjectAt sc (ReadObject sc api fuel) offset w) as [out w'] eqn:H.
  cbn [snd]. apply ReadObjectAt_index in H.
  destruct H as [-> | (wa & outb & wb & Ha & Hr & ->)]; [apply keysIncluded_refl|].
  rewrite <- Ha. pose proof (grows_ReadObject fuel wa) as Hg. by rewrite Hr in Hg.
Qed.

(** X11: [Decode], [ReadObject] and [ReadObjectAt] never drop a key of the
    index, whatever they come to: an offset, a hash or a CRC entry that is
    there before the call is there after it. *)
Theorem Decode_never_drops_index_keys fuel offset (w : W) :
  keysIncluded (indexKeys (index w)) (indexKeys (index (snd (Decode sc api fuel w)))) /\
  keysIncluded (indexKeys (index w)) (indexKeys (index (snd (ReadObject sc api fuel w)))) /\
  keysIncluded (indexKeys (index w))
    (indexKeys (index (snd (ReadObjectAt sc (ReadObject sc api fuel) offset w)))).
Proof.
  split; [|split; [apply grows_ReadObject | apply grows_ReadObjectAt]].
  revert w. change (grows (St := St) (Decode sc api fuel)).
  pose proof (grows_readObjects fuel). pose proof (grows_readObjectsWithObjectStorer fuel).
  pose proof (grows_readObjectsTxLoop fuel).
  unfold Decode, doDecode, readObjectsWithObjectStorerTx.
  grows_tac; auto.
Qed.

Lemma stores_keys fuel put objs (w w' : W) :
  stores sc api fuel put objs w w' ->
  keysIncluded (indexKeys (index w)) (indexKeys (index w')) /\
  (forall ob, ob ∈ objs ->
     HashOf api ob ∈ dom (hashToOffset (dec w')) /\ HashOf api ob ∈ dom (crcs (dec w'))).
Proof.
  induction 1 as [w | obj objs w w1 h t w2 Hread Hput Hs [IHk IHin]].
  - split; [apply keysIncluded_refl|]. intros ob Hin. by apply elem_of_nil in Hin.
  - pose proof (grows_ReadObject fuel w) as Hg. rewrite Hread in Hg. cbn [snd] in Hg.
    change (index (with_sto t w1)) with (index w1) in IHk.
    split; [by eapply keysIncluded_trans|].
    intros ob [-> | Hin]%elem_of_cons; [|by apply IHin].
    destruct fuel as [|fuel]; [discriminate|].
    simpl in Hread. apply ReadObject_body_index in Hread.
    destruct Hread as (ob' & hd & _ & _ & crc & _ & idx & [= <-] & _ & _ & _ & Hidx).
    destruct IHk as (_ & Hk2 & Hk3). rewrite Hidx in Hk2, Hk3.
    unfold indexKeys, insertEntry in Hk2, Hk3. cbn [fst snd] in Hk2, Hk3.
    split; [apply Hk2 | apply Hk3]; apply elem_of_dom; rewrite lookup_insert_eq; eauto.
Qed.

(** X12: with no storage, a pass that fails in the middle returns the error of
    the [ReadObject] that failed, and the index keeps the entries of the
    objects decoded before it: their hashes are keys of [hashToOffset] and
    of [crcs]. *)
Theorem readObjects_failure_keeps_decoded_entries fuel (w : W) objs w1 count r e w2 :
  stores sc api fuel (fun _ t => ((ZeroHash, None), t)) objs w w1 ->
  (length objs < count)%nat ->
  ReadObject sc api fuel w1 = (Returns (r, Some e), w2) ->
  readObjects sc api fuel count w = (Returns (Some e), w2) /\
  (forall ob, ob ∈ objs ->
     is_Some (hashToOffset (dec w2) !! HashOf api ob) /\
     is_Some (crcs (dec w2) !! HashOf api ob)).
Proof.
  intros Hs Hlt Hread. split.
  - revert count Hlt.
    induction Hs as [w' | ob objs w' w3 h t w4 Hr Hput Hs IH]; intros count Hlt;
      (destruct count as [|count]; [simpl in Hlt; lia|]); simpl; unfold bind at 1.
    + by rewrite Hread.
    + rewrite Hr. injection Hput as _ <-. rewrite with_sto_same in IH.
      apply IH; [exact Hread | simpl in Hlt; lia].
  - intros ob Hin. destruct (stores_keys _ _ _ _ _ Hs) as [_ Hkeys].
    destruct (Hkeys ob Hin) as [H1 H2].
    pose proof (grows_ReadObject fuel w1) as Hg. rewrite Hread in Hg.
    destruct Hg as (_ & Hg2 & Hg3). cbn [snd] in Hg2, Hg3.
    split; apply elem_of_dom; [apply Hg2, H1 | apply Hg3, H2].
Qed.

(** X13: the hash that comes with an error of [Decode].  When the scanner
    cannot read the header of the pack, [Decode] returns the zero hash with
    the scanner's error: no object is read, no transaction is begun, the
    checksum is not asked for, and the index and the storage are as they
    were.  In general an error of [Decode] is either the error of the
    pass, returned with the zero hash and without a call of [Checksum], or
    the error of [Checksum] after a pass that succeeded, returned with the
    hash that [Checksum] gives. *)
Theorem Decode_header_error fuel (w : W) :
  (forall v count e s1,
     Header sc (scn w) = ((v, count, Some e), s1) ->
     Decode sc api fuel w = (Returns (ZeroHash, Some e), with_scn s1 w)) /\
  (forall h e w',
     Decode sc api fuel w = (Returns (h, Some e), w') ->
     (doDecode sc api fuel w = (Returns (Some e), w') /\ h = ZeroHash) \/
     (exists w1, doDecode sc api fuel w = (Returns None, w1) /\
                 Checksum sc (scn w1) = ((h, Some e), scn w') /\
                 w' = with_scn (scn w') w1)).
Proof.
  split.
  - intros v count e s1 Hh. unfold Decode, doDecode, bind, scan. by rewrite Hh.
  - intros h e w' H. unfold Decode in H.
    apply bind_inv in H as [(err & w1 & Hm & Hk) | [(p & _ & ?) | [_ ?]]];
      try discriminate.
    destruct err as [e'|].
    + injection Hk as <- <- <-. by left.
    + right. exists w1. split; [exact Hm|].
      unfold scan in Hk. destruct (Checksum sc (scn w1)) as [r s3].
      injection Hk as -> <-. by split.
Qed.

End Properties.

(** ** Properties of the iterators *)

Section IteratorProperties.

Context {T Ob : Type}.
Variable nilObject : Ob.
Variable cb : Ob -> T -> option error * T.

(** An iterator that hands out the objects of a list: [items i] is what
    is left to hand out, and [Next] touches nothing else.  Over such an
    iterator the loop of [ForEachIterator] is [visit] over the list, and
    it ends within one turn more than the list is long. *)
Lemma ForEachIterator_loop_over_list {I} (it : bareIterator I T Ob) (items : I -> list Ob) :
  (forall i st,
     match items i with
     | [] => exists obj i', iterNext it i st = ((obj, Some EOF), (i', st))
     | x :: l => exists i', iterNext it i st = ((x, None), (i', st)) /\ items i' = l
     end) ->
  forall fuel i st,
    (length (items i) < fuel)%nat ->
    exists i',
      ForEachIterator_loop it cb fuel i st
      = Some (fst (visit cb (items i) st), (i', snd (visit cb (items i) st))).
Proof.
  intros Hnext fuel. induction fuel as [|fuel IH]; intros i st Hlen; [lia|].
  specialize (Hnext i st). simpl.
  destruct (items i) as [|x l] eqn:Hitems.
  - destruct Hnext as (obj & i' & ->). simpl. by exists i'.
  - destruct Hnext as (i' & -> & Hl). simpl.
    destruct (cb x st) as [[e|] st'].
    + exists i'. by destruct (bool_decide (e = ErrStop)).
    + simpl in Hlen. destruct (IH i' st') as (i'' & ->); [rewrite Hl; lia|].
      exists i''. by rewrite Hl.
Qed.

(** X14: [ObjectSliceIter.ForEach] calls the callback on the objects of the
    slice in order, until the callback returns an error; it returns that
    error, or nil when the error is [ErrStop] or the slice is exhausted.
    The loop ends within [len(series) + 1] turns, and the iterator is left
    closed, its slice empty, in every case. *)
Theorem ObjectSliceIter_ForEach_visits_in_order fuel (l : list Ob) (st : T) :
  (length l < fuel)%nat ->
  ObjectSliceIter_ForEach nilObject cb fuel (NewObjectSliceIter l) st
  = Some (fst (visit cb l st), ([], snd (visit cb l st))).
Proof.
  intros Hlen. unfold ObjectSliceIter_ForEach, ForEachIterator, NewObjectSliceIter.
  destruct (ForEachIterator_loop_over_list (ObjectSliceIter_iter nilObject)
              (fun i => i)) with (fuel := fuel) (i := l) (st := st) as (i' & ->);
    [|exact Hlen | reflexivity].
  intros [|x r] st'; simpl; eauto.
Qed.

Lemma MultiObjectIter_Next_slices (iters : list (list Ob)) (st : T) :
  snd (snd (MultiObjectIter_Next nilObject (ObjectSliceIter_iter nilObject) iters st)) = st /\
  match concat iters with
  | [] =>
      MultiObjectIter_Next nilObject (ObjectSliceIter_iter nilObject) iters st
      = ((nilObject, Some EOF), ([], st))
  | x :: l =>
      fst (MultiObjectIter_Next nilObject (ObjectSliceIter_iter nilObject) iters st)
      = (x, None) /\
      concat (fst (snd (MultiObjectIter_Next nilObject
                          (ObjectSliceIter_iter nilObject) iters st))) = l
  end.
Proof.
  induction iters as [|i rest IH]; [by split|].
  destruct i as [|x r]; simpl.
  - exact IH.
  - by repeat split.
Qed.

(** X15: [MultiObjectIter.Next] over slice iterators hands out the objects of
    the slices one after the other, as if they were one slice: it returns
    the first object of their concatenation and leaves the rest of it,
    dropping the slices it found empty on the way; when nothing is left
    it returns [io.EOF] and holds no iterator any more. *)
Theorem MultiObjectIter_Next_concatenates (iters : list (list Ob)) (st : T) :
  snd (snd (MultiObjectIter_Next nilObject (ObjectSliceIter_iter nilObject) iters st)) = st /\
  match concat iters with
  | [] =>
      MultiObjectIter_Next nilObject (ObjectSliceIter_iter nilObject) iters st
      = ((nilObject, Some EOF), ([], st))
  | x :: l =>
      fst (MultiObjectIter_Next nilObject (ObjectSliceIter_iter nilObject) iters st)
      = (x, None) /\
      concat (fst (snd (MultiObjectIter_Next nilObject
                          (ObjectSliceIter_iter nilObject) iters st))) = l
  end.
Proof.
  induction iters as [|i rest IH]; [by split|].
  destruct i as [|x r]; simpl.
  - exact IH.
  - by repeat split.
Qed.

Lemma MultiObjectIter_Close_slices (iters : list (list Ob)) (st : T) :
  MultiObjectIter_Close (ObjectSliceIter_iter nilObject) iters st
  = (map (fun _ => []) iters, st).
Proof.
  induction iters as [|i rest IH]; [reflexivity|]. simpl. by rewrite IH.
Qed.

Lemma concat_all_nil {A B} (l : list B) : concat (map (fun _ => @nil A) l) = [].
Proof. induction l; simpl; auto. Qed.

(** X16: [MultiObjectIter.ForEach] over slice iterators is [ForEach] over the
    concatenation of the slices: the callback sees their objects in
    order, the result is the callback's first error ([ErrStop] giving
    nil), and the iterators that are left are closed. *)
Theorem MultiObjectIter_ForEach_visits_concatenation fuel (iters : list (list Ob)) (st : T) :
  (length (concat iters) < fuel)%nat ->
  exists iters',
    MultiObjectIter_ForEach nilObject (ObjectSliceIter_iter nilObject) cb fuel
      (NewMultiObjectIter iters) st
    = Some (fst (visit cb (concat iters) st), (iters', snd (visit cb (concat iters) st))) /\
    concat iters' = [].
Proof.
  intros Hlen. unfold MultiObjectIter_ForEach, ForEachIterator, NewMultiObjectIter.
  destruct (ForEachIterator_loop_over_list
              (MultiObjectIter_iter nilObject (ObjectSliceIter_iter nilObject))
              (@concat Ob)) with (fuel := fuel) (i := iters) (st := st) as (i' & ->);
    [|exact Hlen|].
  - intros i st'. destruct (MultiObjectIter_Next_slices i st') as [Hst Hc].
    cbn [iterNext MultiObjectIter_iter].
    destruct (concat i) as [|x l].
    + rewrite Hc. eauto.
    + destruct (MultiObjectIter_Next nilObject (ObjectSliceIter_iter nilObject) i st')
        as [r [i2 st2]]. simpl in *. destruct Hc as [-> Hc]. subst st2. eauto.
  - cbn [iterClose MultiObjectIter_iter]. rewrite MultiObjectIter_Close_slices.
    eexists. split; [reflexivity | apply concat_all_nil].
Qed.

(** X17: [ObjectLookupIter.ForEach] asks the storage for the hashes of the
    series in order, from the position of the iterator on, and calls the
    callback on each object found.  It stops at the first hash for which
    the storage returns an error and returns that error (nil if it is
    [io.EOF]), or at the first error of the callback (nil if it is
    [ErrStop]).  The loop ends within one turn more than there are hashes
    left, and the iterator is left closed, at the end of its series. *)
Theorem ObjectLookupIter_ForEach_visits_hashes fuel (iter : ObjectLookupIter) (st : T) :
  (length (series iter) - pos iter < fuel)%nat ->
  ObjectLookupIter_ForEach nilObject cb fuel iter st
  = Some (fst (visitHashes cb (storage iter) (t iter) (drop (pos iter) (series iter)) st),
          ({| storage := storage iter; series := series iter; t := t iter;
              pos := length (series iter) |},
           snd (visitHashes cb (storage iter) (t iter)
                  (drop (pos iter) (series iter)) st))).
Proof.
  unfold ObjectLookupIter_ForEach, ForEachIterator.
  revert iter st. induction fuel as [|fuel IH]; intros iter st Hlen; [lia|].
  cbn [ForEachIterator_loop iterNext ObjectLookupIter_iter]. unfold ObjectLookupIter_Next.
  destruct (series iter !! pos iter) as [hash|] eqn:Hlook.
  - rewrite (drop_S _ _ _ Hlook). cbn [visitHashes].
    destruct (storage iter (t iter) hash st) as [[obj [e|]] st'].
    + by destruct (bool_decide (e = EOF)).
    + destruct (cb obj st') as [[e|] st''].
      * by destruct (bool_decide (e = ErrStop)).
      * apply lookup_lt_Some in Hlook.
        specialize (IH {| storage := storage iter; series := series iter;
                          t := t iter; pos := S (pos iter) |} st'').
        cbn [series pos storage t] in IH. apply IH. lia.
  - apply lookup_ge_None in Hlook. rewrite drop_ge by exact Hlook. reflexivity.
Qed.

(** X18: a closed iterator is exhausted.  After [Close], [Next] of an
    [ObjectLookupIter] returns [io.EOF] without asking the storage, [Next]
    of an [ObjectSliceIter] returns [io.EOF], and [Next] of a
    [MultiObjectIter] over slice iterators returns [io.EOF] and drops
    them all. *)
Theorem Close_exhausts (st : T) :
  (forall iter : ObjectLookupIter,
     ObjectLookupIter_Next nilObject (fst (ObjectLookupIter_Close iter st)) st
     = ((nilObject, Some EOF), (fst (ObjectLookupIter_Close iter st), st))) /\
  (forall iter : ObjectSliceIter,
     ObjectSliceIter_Next nilObject (fst (ObjectSliceIter_Close iter st)) st
     = ((nilObject, Some EOF), ([], st))) /\
  (forall iters : list (list Ob),
     MultiObjectIter_Next nilObject (ObjectSliceIter_iter nilObject)
       (fst (MultiObjectIter_Close (ObjectSliceIter_iter nilObject) iters st)) st
     = ((nilObject, Some EOF), ([], st))).
Proof.
  split; [|split].
  - intros iter. unfold ObjectLookupIter_Next, ObjectLookupIter_Close.
    cbn [fst series pos]. by rewrite lookup_ge_None_2.
  - reflexivity.
  - intros iters. rewrite MultiObjectIter_Close_slices. cbn [fst].
    pose proof (MultiObjectIter_Next_slices (map (fun _ => []) iters) st) as [_ H].
    by rewrite concat_all_nil in H.
Qed.

End IteratorProperties.

(** ** The decoder run on packs *)

Import Fixture.

(** The scanner of the examples keeps the contract of [Seek]. *)
Lemma packSeek_contract seekable p offset s prev s' :
  Seek (packScanner seekable p) offset s = ((prev, None), s') ->
  prev = cursor s /\ cursor s' = offset.
Proof.
  simpl. unfold packSeek. destruct (seeksLeft s); [discriminate|].
  intros [= <- <-]. by split.
Qed.

(** C1, on a storage with transactions that accepts one object and then
    fails: decoding the three blobs, the second [SetObject] of the
    transaction fails, and [Decode] panics on the nil [d.tx] instead of
    returning an error.  [Rollback] has not run: the storage counts no
    rollback and the first blob is still staged in the transaction.  The
    same happens when the rollback would fail too: no [ErrRollback] is
    returned. *)
Example Decode_tx_set_failure_panics :
  forall rollbackFails,
  exists w0,
    start (packScanner false threeBlobs) (Some (memStorer true))
      (scanAt 0 0) (emptyStore 1 rollbackFails) = Some w0 /\
    fst (Decode (packScanner false threeBlobs) memAPI 1 w0) = Panics NilDereference /\
    rollbacks (sto (snd (Decode (packScanner false threeBlobs) memAPI 1 w0))) = 0%nat /\
    staged (sto (snd (Decode (packScanner false threeBlobs) memAPI 1 w0)))
    = [ {| mType := BlobObject; mSize := 1; mCont := text "a" |} ].
Proof.
  intros rollbackFails. eexists. split; [reflexivity|].
  destruct rollbackFails; vm_compute; repeat split.
Qed.

(** C3, on a reader that serves one seek and fails the next:
    [ReadObjectAt 20] jumps, [ReadObject] returns the blob at offset 20,
    the seek back to offset 12 fails, and [ReadObjectAt] returns the blob
    with a nil error: the error of the seek back is lost. *)
Example ReadObjectAt_loses_the_seek_back_error :
  let sc := packScanner true threeBlobs in
  let bb := {| mType := BlobObject; mSize := 2; mCont := text "bb" |} in
  exists w0,
    start sc noStorer (scanAt 12 1) (emptyStore 0 false) = Some w0 /\
    fst (Seek sc 20 (scn w0)) = (12, None) /\
    fst (ReadObject sc memAPI 1 (with_scn (snd (Seek sc 20 (scn w0))) w0))
    = Returns (Some bb, None) /\
    fst (Seek sc 12
           (scn (snd (ReadObject sc memAPI 1 (with_scn (snd (Seek sc 20 (scn w0))) w0)))))
    = (-1, Some (ExternalError "seek failed")) /\
    fst (ReadObjectAt sc (ReadObject sc memAPI 1) 20 w0) = Returns (Some bb, None).
Proof.
  intros sc bb. eexists. split; [reflexivity|]. vm_compute. repeat split.
Qed.

(** C4 fails when the seek back fails: on the same reader, the cursor is
    at offset 12 before [ReadObjectAt 20] and at offset 30, past the blob
    read, after it. *)
Lemma ReadObjectAt_cursor_not_restored :
  let sc := packScanner true threeBlobs in
  exists w0,
    start sc noStorer (scanAt 12 1) (emptyStore 0 false) = Some w0 /\
    cursor (scn (snd (ReadObjectAt sc (ReadObject sc memAPI 1) 20 w0)))
    <> cursor (scn w0).
Proof.
  intros sc. eexists. split; [reflexivity|]. vm_compute. discriminate.
Qed.

(** The amended C4 at work: the reader serves both seeks, and the cursor
    is back at offset 12 after [ReadObjectAt 20]. *)
Lemma ReadObjectAt_restores_cursor_witness :
  let sc := packScanner true threeBlobs in
  let w0 := fresh noStorer (scanAt 12 2) (emptyStore 0 false) in
  let s1 := {| cursor := 20; seeksLeft := 1; seekLog := [20] |} in
  let bb := {| mType := BlobObject; mSize := 2; mCont := text "bb" |} in
  let w2 := snd (ReadObject sc memAPI 1 (with_scn s1 w0)) in
  let s3 := {| cursor := 12; seeksLeft := 0; seekLog := [20; 12] |} in
  start sc noStorer (scanAt 12 2) (emptyStore 0 false) = Some w0 /\
  ReadObjectAt sc (ReadObject sc memAPI 1) 20 w0
  = (Returns (Some bb, None), with_scn s3 w2) /\
  cursor (scn (with_scn s3 w2)) = cursor (scn w0).
Proof.
  intros sc w0 s1 bb w2 s3. split; [reflexivity|].
  apply (proj2 (ReadObjectAt_restores_cursor sc memAPI cursor
                  (packSeek_contract true threeBlobs) 1 20 w0) 12 s1
           (Returns (Some bb, None)) w2 30 s3).
  - reflexivity.
  - reflexivity.
  - vm_compute. reflexivity.
  - discriminate.
  - vm_compute. reflexivity.
Defined.

(** C2 fails on the pack whose OfsDelta, at offset 40, refers 28 bytes
    back to the blob at offset 12: the decoder seeks to offset 28, which
    is not 40 - 28, finds no object there and returns the scanner's
    error. *)
Lemma OfsDelta_recall_does_not_subtract :
  let sc := packScanner true (helloDelta 28) in
  exists w0 h,
    start sc noStorer (scanAt 40 2) (emptyStore 0 false) = Some w0 /\
    fst (NextObjectHeader sc (scn w0)) = inl h /\
    Type_ h = OFSDeltaObject /\
    entryAt (helloDelta 28) (Offset h - OffsetReference h) <> None /\
    head (seekLog (scn (snd (ReadObject sc memAPI 2 w0)))) = Some (OffsetReference h) /\
    OffsetReference h <> Offset h - OffsetReference h /\
    snd <$> (match fst (ReadObject sc memAPI 2 w0) with
             | Returns r => Some r
             | _ => None
             end) = Some (Some (ExternalError "EOF")).
Proof.
  intros sc. eexists. eexists. split; [reflexivity|]. split; [reflexivity|].
  vm_compute. repeat split; discriminate.
Qed.

(** The amended C2 at work: the header at offset 40 carries the offset
    reference 12; the decoder seeks to 12, reads the blob ["hello"] there
    and applies the delta to it. *)
Lemma OfsDelta_base_is_recalled_at_OffsetReference_witness :
  let sc := packScanner true (helloDelta 12) in
  let h := ofsDeltaHeader 40 11 12 in
  let obj := {| mType := OFSDeltaObject; mSize := 11; mCont := [] |} in
  let w := fresh noStorer (scanAt 40 2) (emptyStore 0 false) in
  let s3 := {| cursor := 12; seeksLeft := 1; seekLog := [12] |} in
  let hello := {| mType := BlobObject; mSize := 5; mCont := text "hello" |} in
  let wb := snd (ReadObject sc memAPI 1 (with_scn s3 w)) in
  cursor (scn (with_scn s3 w)) = OffsetReference h /\
  fillObjectContent sc memAPI (ReadObject sc memAPI 1) h obj w
  = (Returns ({| mType := BlobObject; mSize := 11; mCont := text "hello world" |},
              22, None),
     with_scn (snd (Seek sc 60 (scn wb))) wb).
Proof.
  intros sc h obj w s3 hello wb.
  apply (proj2 (proj1 (OfsDelta_base_is_recalled_at_OffsetReference sc memAPI cursor
                         (packSeek_contract true (helloDelta 12))
                         (ReadObject sc memAPI 1) h obj w (text " world") 22
                         (moveTo 60 (scanAt 40 2)) eq_refl eq_refl) eq_refl)
           60 s3 hello wb).
  - reflexivity.
  - vm_compute. reflexivity.
Defined.




(** C7 at work.  The three blobs are decoded and the checksum of the pack
    is returned; on the empty pack, scenario S1, the checksum is returned
    and the index stays empty. *)
Lemma Decode_reads_count_objects_and_returns_checksum_witness :
  let sc := packScanner true threeBlobs in
  let w := fresh noStorer (scanAt 0 2) (emptyStore 0 false) in
  let w' := snd (Decode sc memAPI 1 w) in
  let sc0 := packScanner true emptyPack in
  (Decode sc memAPI 1 w = (Returns (777%N, None), w') /\
   exists objs t0 w1,
     length objs = 3%nat /\
     decodes sc memAPI 1 objs (with_sto t0 (with_scn (scanAt 12 2) w)) w1 /\
     Checksum sc (scn w1) = ((777%N, None), scn w') /\
     w' = with_scn (scn w') (with_sto (sto w') w1)) /\
  Decode sc0 memAPI 0 w = (Returns (4242%N, None), with_scn (scanAt 12 2) w) /\
  index (snd (Decode sc0 memAPI 0 w)) = (∅, ∅, ∅).
Proof.
  intros sc w w' sc0. split.
  - assert (HD : Decode sc memAPI 1 w = (Returns (777%N, None), w'))
      by (vm_compute; reflexivity).
    split; [exact HD|].
    exact (proj1 (Decode_reads_count_objects_and_returns_checksum sc memAPI 1 w 2 3%N
                    (scanAt 12 2) eq_refl) 777%N w' HD).
  - pose proof (proj2 (Decode_reads_count_objects_and_returns_checksum sc0 memAPI 0 w 2
                         0%N (scanAt 12 2) eq_refl) eq_refl) as (HD & _ & Hempty).
    split; [exact HD|]. apply (Hempty noStorer). reflexivity.
Defined.

(** C8 at work: no storage and a scanner that is not seekable. *)
Lemma NewDecoder_non_seekable_witness :
  let sc := packScanner false threeBlobs in
  NewDecoder sc noStorer = (None, Some ErrNonSeekable) /\
  (exists d, NewDecoder sc (Some (memStorer false)) = (Some d, None)
             /\ o d = Some (memStorer false)) /\
  ReadObjectAt sc (ReadObject sc memAPI 1) 20
    (fresh (Some (memStorer false)) (scanAt 12 2) (emptyStore 3 false))
  = (Returns (None, Some ErrNonSeekable),
     fresh (Some (memStorer false)) (scanAt 12 2) (emptyStore 3 false)).
Proof.
  intros sc.
  pose proof (NewDecoder_non_seekable (St := MemStore) sc memAPI) as [Hfail Hok].
  split; [apply (proj1 (Hfail noStorer)); split; reflexivity|].
  destruct (Hok eq_refl (memStorer false)) as [Hnew Hat].
  split; [exact Hnew | apply Hat].
Defined.

(** C9 fails on a pack that holds one object twice: [Decode] succeeds on
    the two blobs ["a"], and [crcs] has one entry, not two. *)
Lemma Decode_crcs_fewer_than_count :
  let sc := packScanner true twiceA in
  exists w0,
    start sc noStorer (scanAt 0 2) (emptyStore 0 false) = Some w0 /\
    fst (Header sc (scn w0)) = (2, 2%N, None) /\
    fst (Decode sc memAPI 1 w0) = Returns (555%N, None) /\
    size (crcs (dec (snd (Decode sc memAPI 1 w0)))) = 1%nat /\
    size (crcs (dec (snd (Decode sc memAPI 1 w0)))) <> N.to_nat 2.
Proof.
  intros sc. eexists. split; [reflexivity|]. split; [reflexivity|].
  vm_compute. repeat split. discriminate.
Qed.

(** The amended C9 at work: the three blobs have three hashes, and
    [crcs] has three entries. *)
Lemma Decode_crcs_cover_decoded_objects_witness :
  let sc := packScanner true threeBlobs in
  let w := fresh noStorer (scanAt 0 2) (emptyStore 0 false) in
  let w' := snd (Decode sc memAPI 1 w) in
  Decode sc memAPI 1 w = (Returns (777%N, None), w') /\
  crcs (dec w) = ∅ /\
  exists objs t0 w1,
    length objs = 3%nat /\
    decodes sc memAPI 1 objs (with_sto t0 (with_scn (scanAt 12 2) w)) w1 /\
    index w' = index w1 /\
    (forall ob, ob ∈ objs -> is_Some (crcs (dec w') !! HashOf memAPI ob)) /\
    dom (crcs (dec w')) = list_to_set (HashOf memAPI <$> objs) /\
    (size (crcs (dec w')) = 3%nat <-> NoDup (HashOf memAPI <$> objs)).
Proof.
  intros sc w w'.
  assert (HD : Decode sc memAPI 1 w = (Returns (777%N, None), w'))
    by (vm_compute; reflexivity).
  split; [exact HD|]. split; [reflexivity|].
  destruct (Decode_crcs_cover_decoded_objects sc memAPI 1 w 2 3%N (scanAt 12 2)
              777%N w' eq_refl HD)
    as (objs & t0 & w1 & Hlen & Hp & Hidx & Hin & Hexact).
  exists objs, t0, w1. repeat split; try assumption; apply (Hexact eq_refl eq_refl).
Defined.

(** C10 at work: the storage with transactions accepts one object; the
    second [SetObject] fails after the blob ["bb"] is read, and the loop
    panics on the nil [d.tx], the storage left as the failed [SetObject]
    left it. *)
Lemma tx_is_never_assigned_witness :
  let sc := packScanner false threeBlobs in
  let w := fresh (Some (memStorer true))
             {| cursor := 20; seeksLeft := 0; seekLog := [] |}
             {| committed := [];
                staged := [ {| mType := BlobObject; mSize := 1; mCont := text "a" |} ];
                setsLeft := 0; rollbacks := 0; rollbackFails := false |} in
  let bb := {| mType := BlobObject; mSize := 2; mCont := text "bb" |} in
  let w1 := snd (ReadObject sc memAPI 1 w) in
  tx (dec w) = None /\
  ReadObject sc memAPI 1 w = (Returns (Some bb, None), w1) /\
  txSetObject memTx (Some bb) (sto w1)
  = ((ZeroHash, Some (ExternalError "storage full")), sto w1) /\
  readObjectsTxLoop sc memAPI 1 memTx 2 w = (Panics NilDereference, with_sto (sto w1) w1).
Proof.
  intros sc w bb w1.
  assert (Hread : ReadObject sc memAPI 1 w = (Returns (Some bb, None), w1))
    by (vm_compute; reflexivity).
  assert (Hset : txSetObject memTx (Some bb) (sto w1)
                 = ((ZeroHash, Some (ExternalError "storage full")), sto w1))
    by (vm_compute; reflexivity).
  split; [reflexivity|]. split; [exact Hread|]. split; [exact Hset|].
  exact (proj1 (proj2 (proj2 (tx_is_never_assigned sc memAPI)) w eq_refl)
           1%nat memTx 1%nat (Some bb) w1 ZeroHash (ExternalError "storage full")
           (sto w1) Hread Hset).
Defined.

(** ** More runs *)


(** The three failures of a plain object: no header at offset 13, objects
    without a writer, bodies that do not inflate. *)
Lemma ReadObject_plain_object_errors_witness :
  let sc := packScanner true threeBlobs in
  let w := fresh noStorer (scanAt 12 2) (emptyStore 0 false) in
  let v := fresh noStorer (scanAt 13 2) (emptyStore 0 false) in
  let a0 := {| mType := BlobObject; mSize := 1; mCont := [] |} in
  ReadObject sc memAPI 1 v = (Returns (None, Some (ExternalError "EOF")), v) /\
  ReadObject sc noWriterAPI 1 w
  = (Returns (Some a0, Some (ExternalError "no writer")), w) /\
  ReadObject (brokenBody sc) memAPI 1 w = (Returns (Some a0, Some ErrZLib), w) /\
  index (with_scn (scanAt 12 2) w) = index w.
Proof.
  intros sc w v a0. split; [|split].
  - exact (proj1 (ReadObject_plain_object_errors sc memAPI 0 v)
             (ExternalError "EOF") (scanAt 13 2) eq_refl).
  - exact (proj1 (proj2 (ReadObject_plain_object_errors sc noWriterAPI 0 w)
                    (blobHeader 12 1) (scanAt 12 2) (MemoryObject memAPI) w
                    eq_refl eq_refl eq_refl)
             (ExternalError "no writer") eq_refl).
  - exact (proj2 (proj2 (ReadObject_plain_object_errors (brokenBody sc) memAPI 0 w)
                    (blobHeader 12 1) (scanAt 12 2) (MemoryObject memAPI) w
                    eq_refl eq_refl eq_refl)
             [] 0 ErrZLib (scanAt 12 2) eq_refl eq_refl).
Defined.

(** A header of an unknown type. *)
Lemma ReadObject_invalid_type_witness :
  let sc := packScanner true oddType in
  let w := fresh noStorer (scanAt 12 2) (emptyStore 0 false) in
  ReadObject sc memAPI 1 w
  = (Returns (Some {| mType := InvalidObject; mSize := 1; mCont := [] |},
              Some (PackError "invalid git object"
                      (invalidTypeDetails memAPI InvalidObject))), w) /\
  scn w = scanAt 12 2 /\ index w = index w.
Proof.
  intros sc w.
  exact (ReadObject_invalid_type sc memAPI 0 w
           {| Type_ := InvalidObject; Offset := 12; Length := 1;
              Reference := ZeroHash; OffsetReference := 0 |}
           (scanAt 12 2) (MemoryObject memAPI) w eq_refl eq_refl eq_refl eq_refl).
Defined.

(** An OfsDelta on a scanner that is not seekable: its base offset is not
    in the index, and [ReadObject] returns [plumbing.ErrObjectNotFound]. *)
Lemma ReadObject_delta_needs_seekable_witness :
  let sc := packScanner false (helloDelta 12) in
  let w := fresh (Some (memStorer false)) (scanAt 40 0) (emptyStore 3 false) in
  let out := fst (ReadObject sc memAPI 1 w) in
  let w' := snd (ReadObject sc memAPI 1 w) in
  out = Returns (Some {| mType := OFSDeltaObject; mSize := 11; mCont := [] |},
                 Some ErrObjectNotFound) /\
  ((exists obj e, out = Returns (Some obj, Some e)) \/ out = Panics NilDereference) /\
  index w' = index w.
Proof.
  intros sc w out w'. split; [vm_compute; reflexivity|].
  apply (ReadObject_delta_needs_seekable sc memAPI 0 w (ofsDeltaHeader 40 11 12)
           (scanAt 40 0) out w' eq_refl eq_refl eq_refl eq_refl).
  apply surjective_pairing.
Defined.

(** A RefDelta whose base is in the pack: the hash of the blob ["hello"]
    is given the offset 12 by [SetOffsets], and the delta at offset 40 is
    applied to the blob read there. *)
Lemma RefDelta_base_is_read_at_indexed_offset_witness :
  let sc := packScanner true helloRefDelta in
  let h := {| Type_ := REFDeltaObject; Offset := 40; Length := 11;
              Reference := memHash helloBlob; OffsetReference := 0 |} in
  let obj := {| mType := REFDeltaObject; mSize := 11; mCont := [] |} in
  let w := snd (SetOffsets {[ memHash helloBlob := 12 ]}
                  (fresh noStorer (scanAt 40 2) (emptyStore 0 false))) in
  let s3 := {| cursor := 12; seeksLeft := 1; seekLog := [12] |} in
  let wb := snd (ReadObject sc memAPI 1 (with_scn s3 w)) in
  fillObjectContent sc memAPI (ReadObject sc memAPI 1) h obj w
  = (Returns ({| mType := BlobObject; mSize := 11; mCont := text "hello world" |},
              22, None),
     with_scn (snd (Seek sc 60 (scn wb))) wb).
Proof.
  intros sc h obj w s3 wb.
  apply (proj2 (RefDelta_base_is_read_at_indexed_offset sc memAPI
                  (ReadObject sc memAPI 1) h obj w (text " world") 22
                  (moveTo 60 (scanAt 40 2)) 12 eq_refl eq_refl eq_refl eq_refl)
           60 s3 helloBlob wb).
  - reflexivity.
  - vm_compute. reflexivity.
Defined.

(** [SetOffsets] with the hash of ["hello"] at offset 12: a read by that
    hash is a read at 12, a read by another hash panics on the nil
    [d.tx]. *)
Lemma SetOffsets_directs_recallByHash_witness :
  let sc := packScanner true helloRefDelta in
  let rec := ReadObject sc memAPI 1 in
  let offsets : gmap N Z := {[ memHash helloBlob := 12 ]} in
  let w := fresh noStorer (scanAt 40 2) (emptyStore 0 false) in
  recallByHash sc rec (memHash helloBlob) (snd (SetOffsets offsets w))
  = ReadObjectAt sc rec 12 (snd (SetOffsets offsets w)) /\
  recallByHash sc rec 5%N (snd (SetOffsets offsets w))
  = (Panics NilDereference, snd (SetOffsets offsets w)).
Proof.
  intros sc rec offsets w.
  pose proof (SetOffsets_directs_recallByHash sc rec offsets w) as (_ & Hin & Hout).
  split.
  - apply (Hin eq_refl). reflexivity.
  - apply (Hout eq_refl). reflexivity.
Defined.

(** The three blobs decoded into a storage without transactions: each is
    set, in order. *)
Lemma readObjectsWithObjectStorer_sets_each_object_witness :
  let sc := packScanner false threeBlobs in
  let w := fresh (Some (memStorer false)) (scanAt 12 0) (emptyStore 3 false) in
  let w' := snd (readObjectsWithObjectStorer sc memAPI 1 3 w) in
  readObjectsWithObjectStorer sc memAPI 1 3 w = (Returns None, w') /\
  committed (sto w')
  = [ {| mType := BlobObject; mSize := 1; mCont := text "a" |};
      {| mType := BlobObject; mSize := 2; mCont := text "bb" |};
      {| mType := BlobObject; mSize := 3; mCont := text "ccc" |} ] /\
  exists objs,
    length objs = 3%nat /\
    stores sc memAPI 1 (SetObject (memStorer false)) objs w w'.
Proof.
  intros sc w w'.
  assert (H : readObjectsWithObjectStorer sc memAPI 1 3 w = (Returns None, w'))
    by (vm_compute; reflexivity).
  split; [exact H|]. split; [vm_compute; reflexivity|].
  exact (proj2 (readObjectsWithObjectStorer_sets_each_object sc memAPI 1 w
                  (memStorer false) eq_refl) 3%nat w' H).
Defined.

(** A storage that accepts one object: the blob ["a"] is set, the blob
    ["bb"] is refused, and the pass returns the storage's error with
    ["a"] still set. *)
Lemma readObjectsWithObjectStorer_stops_at_first_error_witness :
  let sc := packScanner false threeBlobs in
  let w := fresh (Some (memStorer false)) (scanAt 12 0) (emptyStore 1 false) in
  let a := {| mType := BlobObject; mSize := 1; mCont := text "a" |} in
  let bb := {| mType := BlobObject; mSize := 2; mCont := text "bb" |} in
  let w1 := with_sto (snd (SetObject (memStorer false) (Some a)
                             (sto (snd (ReadObject sc memAPI 1 w)))))
              (snd (ReadObject sc memAPI 1 w)) in
  let w2 := snd (ReadObject sc memAPI 1 w1) in
  readObjectsWithObjectStorer sc memAPI 1 3 w
  = (Returns (Some (ExternalError "storage full")), with_sto (sto w2) w2) /\
  committed (sto w2) = [a].
Proof.
  intros sc w a bb w1 w2.
  assert (Hs : stores sc memAPI 1 (SetObject (memStorer false)) [a] w w1).
  { eapply stores_cons with (h := memHash a); [| |constructor].
    - vm_compute. reflexivity.
    - vm_compute. reflexivity. }
  split; [|vm_compute; reflexivity].
  apply (proj1 (readObjectsWithObjectStorer_stops_at_first_error sc memAPI 1 w
                  (memStorer false) [a] w1 3 eq_refl Hs ltac:(simpl; lia))
           bb w2 ZeroHash (ExternalError "storage full") (sto w2)).
  - vm_compute. reflexivity.
  - vm_compute. reflexivity.
Defined.

(** A storage with transactions: the blob at offset 30 is read, set in
    the transaction and committed. *)
Lemma readObjectsWithObjectStorerTx_commits_witness :
  let sc := packScanner false threeBlobs in
  let w := fresh (Some (memStorer true)) (scanAt 30 0) (emptyStore 3 false) in
  let ccc := {| mType := BlobObject; mSize := 3; mCont := text "ccc" |} in
  let w1 := with_sto (snd (txSetObject memTx (Some ccc)
                             (sto (snd (ReadObject sc memAPI 1 w)))))
              (snd (ReadObject sc memAPI 1 w)) in
  readObjectsWithObjectStorerTx sc memAPI 1 1 w
  = (Returns None, with_sto (snd (Commit memTx (sto w1))) w1) /\
  committed (snd (Commit memTx (sto w1))) = [ccc] /\
  staged (snd (Commit memTx (sto w1))) = [].
Proof.
  intros sc w ccc w1.
  assert (Hs : stores sc memAPI 1 (txSetObject memTx) [ccc] (with_sto (sto w) w) w1).
  { eapply stores_cons with (h := memHash ccc); [| |constructor].
    - vm_compute. reflexivity.
    - vm_compute. reflexivity. }
  split; [|split; vm_compute; reflexivity].
  exact (readObjectsWithObjectStorerTx_commits sc memAPI 1 w (memStorer true)
           (fun t => (memTx, t)) memTx (sto w) [ccc] w1 None
           (snd (Commit memTx (sto w1))) eq_refl eq_refl eq_refl Hs eq_refl).
Defined.

(** A storage with transactions and a pack cut short: the blob at offset
    30 is set in the transaction, the next [ReadObject] finds no header,
    and the pass returns that error with the blob still staged, neither
    committed nor rolled back. *)
Lemma readObjectsWithObjectStorerTx_read_error_leaves_transaction_witness :
  let sc := packScanner false threeBlobs in
  let w := fresh (Some (memStorer true)) (scanAt 30 0) (emptyStore 3 false) in
  let ccc := {| mType := BlobObject; mSize := 3; mCont := text "ccc" |} in
  let w1 := with_sto (snd (txSetObject memTx (Some ccc)
                             (sto (snd (ReadObject sc memAPI 1 w)))))
              (snd (ReadObject sc memAPI 1 w)) in
  readObjectsWithObjectStorerTx sc memAPI 1 2 w
  = (Returns (Some (ExternalError "EOF")), w1) /\
  staged (sto w1) = [ccc] /\ committed (sto w1) = [] /\ rollbacks (sto w1) = 0%nat.
Proof.
  intros sc w ccc w1.
  assert (Hs : stores sc memAPI 1 (txSetObject memTx) [ccc] (with_sto (sto w) w) w1).
  { eapply stores_cons with (h := memHash ccc); [| |constructor].
    - vm_compute. reflexivity.
    - vm_compute. reflexivity. }
  split; [|repeat split; vm_compute; reflexivity].
  apply (readObjectsWithObjectStorerTx_read_error_leaves_transaction sc memAPI 1 w
           (memStorer true) (fun t => (memTx, t)) memTx (sto w) [ccc] w1 2 None
           (ExternalError "EOF") w1 eq_refl eq_refl eq_refl Hs ltac:(simpl; lia)).
  vm_compute. reflexivity.
Defined.

(** No storage and a pack cut short: the blob at offset 30 is decoded,
    the next [ReadObject] finds no header, and the index keeps the entry
    of the blob. *)
Lemma readObjects_failure_keeps_decoded_entries_witness :
  let sc := packScanner true threeBlobs in
  let w := fresh noStorer (scanAt 30 2) (emptyStore 0 false) in
  let ccc := {| mType := BlobObject; mSize := 3; mCont := text "ccc" |} in
  let w1 := snd (ReadObject sc memAPI 1 w) in
  readObjects sc memAPI 1 2 w = (Returns (Some (ExternalError "EOF")), w1) /\
  (forall ob, ob ∈ [ccc] ->
     is_Some (hashToOffset (dec w1) !! HashOf memAPI ob) /\
     is_Some (crcs (dec w1) !! HashOf memAPI ob)).
Proof.
  intros sc w ccc w1.
  assert (Hs : stores sc memAPI 1 (fun _ t => ((ZeroHash, None), t)) [ccc] w
                 (with_sto (sto w1) w1)).
  { eapply stores_cons with (h := ZeroHash); [| |constructor].
    - vm_compute. reflexivity.
    - reflexivity. }
  apply (readObjects_failure_keeps_decoded_entries sc memAPI 1 w [ccc]
           (with_sto (sto w1) w1) 2 None (ExternalError "EOF") w1 Hs
           ltac:(simpl; lia)).
  vm_compute. reflexivity.
Defined.

(** A scanner that does not find the signature of the pack. *)
Lemma Decode_header_error_witness :
  let sc := brokenHeader (packScanner true threeBlobs) in
  let w := fresh noStorer (scanAt 0 2) (emptyStore 0 false) in
  Decode sc memAPI 1 w
  = (Returns (ZeroHash, Some (ExternalError "malformed pack file signature")), w).
Proof.
  intros sc w.
  exact (proj1 (Decode_header_error sc memAPI 1 w) 0 0%N
           (ExternalError "malformed pack file signature") (scanAt 0 2) eq_refl).
Defined.

Import IterFixture.

(** [ForEach] over the slice 1, 2, 7, 9 with a callback that stops at 7:
    1, 2 and 7 are seen, nil is returned, the slice is left empty. *)
Lemma ObjectSliceIter_ForEach_visits_in_order_witness :
  ObjectSliceIter_ForEach 0%nat noteUntil7 5 (NewObjectSliceIter [1; 2; 7; 9]%nat) []
  = Some (None, ([], [1; 2; 7]%nat)).
Proof.
  exact (ObjectSliceIter_ForEach_visits_in_order 0%nat noteUntil7 5 [1; 2; 7; 9]%nat []
           ltac:(simpl; lia)).
Defined.

(** [ForEach] over three slices, the second of them empty. *)
Lemma MultiObjectIter_ForEach_visits_concatenation_witness :
  exists iters',
    MultiObjectIter_ForEach 0%nat (ObjectSliceIter_iter 0%nat) noteUntil7 6
      (NewMultiObjectIter [[1; 2]; []; [3; 4]]%nat) []
    = Some (None, (iters', [1; 2; 3; 4]%nat)) /\
    concat iters' = [].
Proof.
  exact (MultiObjectIter_ForEach_visits_concatenation 0%nat noteUntil7 6
           [[1; 2]; []; [3; 4]]%nat [] ltac:(simpl; lia)).
Defined.

(** [ForEach] over the hashes 3, 4, 12, 5 of a storage that holds the
    hashes below 10: the objects 3 and 4 are seen, the error of the
    storage for 12 is returned, and the iterator is left at the end of its
    series. *)
Lemma ObjectLookupIter_ForEach_visits_hashes_witness :
  ObjectLookupIter_ForEach 0%nat noteUntil7 5
    (NewObjectLookupIter smallStorage AnyObject [3; 4; 12; 5]%N) []
  = Some (Some (OtherError ErrObjectNotFound),
          ({| storage := smallStorage; series := [3; 4; 12; 5]%N; t := AnyObject;
              pos := 4 |},
           [3; 4]%nat)).
Proof.
  exact (ObjectLookupIter_ForEach_visits_hashes 0%nat noteUntil7 5
           (NewObjectLookupIter smallStorage AnyObject [3; 4; 12; 5]%N) []
           ltac:(simpl; lia)).
Defined.

